(** * The 2x2x2 Rubik's cube of r16_rubiks_cube/m6006_r16_01_rubiks_cube.cpp

    A shallow embedding of class [RubiksCube]: the slot numbering, the
    facelet identifiers, the static move table built by [init_moves], the
    constructor, [apply_move], [is_solved] and the breadth-first search of
    [get_solution], followed by the properties established about them.

    Conventions.  Enumerators ([move_type_t], [color_t]) are the integers
    C++ gives them, kept in [Z] so that out-of-range values can be written.
    A cube is the array [mSlots], a [list Z] of [NUMSLOTS] 16-bit values.
    The [std::unordered_map] of the search is a [gmap] keyed by cubes; on
    arrays of [NUMSLOTS] entries the key equality [RubiksCubeEqual] is
    equality of lists, and the hash function plays no role in the result. *)

From Stdlib Require Import ZArith Lia List Permutation.
From stdpp Require Import base option list strings gmap.

Local Open Scope Z_scope.

(** ** Enumerations and constants *)

Definition FC : Z := 0.
Definition FCC : Z := 1.
Definition DC : Z := 2.
Definition DCC : Z := 3.
Definition LC : Z := 4.
Definition LCC : Z := 5.
Definition NUMMOVES : Z := 6.

Definition NUMSLOTS : Z := 24.

(** [enum color_t { R, G, B, C, M, Y }].  The names carry a prefix since
    [C] and [Y] would shadow too much. *)
Definition cR : Z := 0.
Definition cG : Z := 1.
Definition cB : Z := 2.
Definition cC : Z := 3.
Definition cM : Z := 4.
Definition cY : Z := 5.

(** [for (i = lo; i < lo + n; ++i)] ranges over [zrange lo n]. *)
Definition zrange (lo : Z) (n : nat) : list Z :=
  map (fun k => lo + Z.of_nat k) (seq 0 n).

(** Reading an array cell; C++ leaves a read out of range undefined, the
    model returns 0 there. *)
Definition at_ (a : list Z) (i : Z) : Z := nth (Z.to_nat i) a 0.

(** Writing an array cell ([a[i] = v]); out of range the model leaves the
    array as it is. *)
Definition set_ (a : list Z) (i : Z) (v : Z) : list Z :=
  <[Z.to_nat i := v]> a.

(** Two-dimensional arrays, row by row. *)
Definition at2 (t : list (list Z)) (r i : Z) : Z :=
  at_ (nth (Z.to_nat r) t []) i.

Definition set2 (t : list (list Z)) (r i : Z) (v : Z) : list (list Z) :=
  alter (fun row => set_ row i v) (Z.to_nat r) t.

(** ** Slots and facelet identifiers *)

(** [(x << 2 | y << 1 | z) * 3 + f] *)
Definition get_slot_num (x y z f : Z) : Z :=
  Z.lor (Z.lor (Z.shiftl x 2) (Z.shiftl y 1)) z * 3 + f.

(** [(c1 << 6 | c2 << 3 | c3)], converted to [uint16_t] on return. *)
Definition get_facelet_id (c1 c2 c3 : Z) : Z :=
  Z.lor (Z.lor (Z.shiftl c1 6) (Z.shiftl c2 3)) c3 mod 2 ^ 16.

(** [(f >> 6) & 0x7] *)
Definition get_facelet_color (f : Z) : Z :=
  Z.land (Z.shiftr f 6) 7.

(** ** The move table *)

(** The lambda [populate_move] of [init_moves], threading the table. *)
Definition populate_move (Move : list (list Z)) (mv : Z)
    (cubelet_from cubelet_to : list (list Z))
    (facelet_from facelet_to : list Z) : list (list Z) :=
  foldl (fun Move cubelet =>
    foldl (fun Move facelet =>
      set2 Move mv
        (get_slot_num (at2 cubelet_from cubelet 0) (at2 cubelet_from cubelet 1)
                      (at2 cubelet_from cubelet 2) (at_ facelet_from facelet))
        (get_slot_num (at2 cubelet_to cubelet 0) (at2 cubelet_to cubelet 1)
                      (at2 cubelet_to cubelet 2) (at_ facelet_to facelet)))
      Move (zrange 0 3))
    Move (zrange 0 4).

(** [init_moves], as a function from the table before the call to the
    table after it. *)
Definition init_moves (Move : list (list Z)) : list (list Z) :=
  if negb (at2 Move 0 0 =? 0) then Move (* Already initialized. *)
  else
    let Move :=
      foldl (fun Move i => foldl (fun Move j => set2 Move i j j)
                                 Move (zrange 0 (Z.to_nat NUMSLOTS)))
            Move (zrange 0 (Z.to_nat NUMMOVES)) in
    (* Front - Clockwise Move *)
    let Move :=
      populate_move Move FC
        [[0; 0; 0]; [0; 0; 1]; [0; 1; 1]; [0; 1; 0]]
        [[0; 0; 1]; [0; 1; 1]; [0; 1; 0]; [0; 0; 0]]
        [0; 1; 2] [0; 2; 1] in
    (* Left - Clockwise Move *)
    let Move :=
      populate_move Move LC
        [[0; 0; 0]; [0; 0; 1]; [1; 0; 1]; [1; 0; 0]]
        [[0; 0; 1]; [1; 0; 1]; [1; 0; 0]; [0; 0; 0]]
        [0; 1; 2] [2; 1; 0] in
    (* Down - Clockwise Move *)
    let Move :=
      populate_move Move DC
        [[0; 0; 0]; [0; 1; 0]; [1; 1; 0]; [1; 0; 0]]
        [[0; 1; 0]; [1; 1; 0]; [1; 0; 0]; [0; 0; 0]]
        [0; 1; 2] [1; 0; 2] in
    (* Counter clockwise moves are inverse of clockwise moves. *)
    let mc := [FC; LC; DC] in
    let mcc := [FCC; LCC; DCC] in
    foldl (fun Move m =>
      foldl (fun Move i =>
        let v := at2 Move (at_ mc m) i in
        set2 Move (at_ mcc m) v i)
        Move (zrange 0 (Z.to_nat NUMSLOTS)))
      Move (zrange 0 3).

(** [size_t RubiksCube::Move[NUMMOVES][NUMSLOTS] = {{0}};] *)
Definition Move_static : list (list Z) :=
  replicate (Z.to_nat NUMMOVES) (replicate (Z.to_nat NUMSLOTS) 0).

(** The table every cube sees: the constructor has run [init_moves] before
    any member function is called. *)
Definition Move : list (list Z) := init_moves Move_static.

(** ** Cubes *)

(** The constructor [RubiksCube()], after its call of [init_moves]: the
    slots of a brand new cube.  The array starts out unspecified and every
    cell is written; the model starts from zeros. *)
Definition RubiksCube : list Z :=
  let face_color := [[cR; cG]; [cB; cC]; [cM; cY]] in
  foldl (fun mSlots x =>
    foldl (fun mSlots y =>
      foldl (fun mSlots z =>
        foldl (fun mSlots f =>
          let cubelet_color :=
            [at2 face_color 0 x; at2 face_color 1 y; at2 face_color 2 z] in
          let facelet_id :=
            get_facelet_id (at_ cubelet_color f)
                           (at_ cubelet_color ((f + 1) mod 3))
                           (at_ cubelet_color ((f + 2) mod 3)) in
          let slot := get_slot_num x y z f in
          set_ mSlots slot facelet_id)
          mSlots (zrange 0 3))
        mSlots (zrange 0 2))
      mSlots (zrange 0 2))
    (replicate (Z.to_nat NUMSLOTS) 0) (zrange 0 2).

(** [apply_move]: the guard, the copy into [oldSlots], the loop. *)
Definition apply_move (m : Z) (mSlots : list Z) : list Z :=
  if (m >=? NUMMOVES) || (m <? 0) then mSlots
  else
    let oldSlots := mSlots in
    map (fun i => at_ oldSlots (at2 Move m i)) (zrange 0 (Z.to_nat NUMSLOTS)).

(** [is_solved]: the four nested loops; [forallb] stops at the first
    failing slot as the [return false] does. *)
Definition is_solved (mSlots : list Z) : bool :=
  forallb (fun x =>
    forallb (fun y =>
      forallb (fun z =>
        forallb (fun f =>
          let fcolor :=
            get_facelet_color
              (at_ mSlots (get_slot_num (if f =? 0 then x else 0)
                                        (if f =? 1 then y else 0)
                                        (if f =? 2 then z else 0) f)) in
          let slot := get_slot_num x y z f in
          get_facelet_color (at_ mSlots slot) =? fcolor)
          (zrange 0 3))
        (zrange 0 2))
      (zrange 0 2))
    (zrange 0 2).

(** [RubiksCubeEqual::operator()] *)
Definition rc_equal (lhs rhs : list Z) : bool :=
  forallb (fun i => at_ lhs i =? at_ rhs i) (zrange 0 (Z.to_nat NUMSLOTS)).


(** The replay loop of [main]: [for (const auto &m : solution) r.apply_move(m);] *)
Definition apply_moves (mSlots : list Z) (ms : list Z) : list Z :=
  foldl (fun r m => apply_move m r) mSlots ms.

(** The pairing of the arrays [mc] and [mcc] of [init_moves]: each clockwise
    move with its counter-clockwise counterpart, in both directions. *)
Definition inverse (m : Z) : Z :=
  if m =? FC then FCC else if m =? FCC then FC
  else if m =? LC then LCC else if m =? LCC then LC
  else if m =? DC then DCC else if m =? DCC then DC
  else m.

(** ** The search *)

(** An iterator into [parents]: [None] stands for [parents.end()], and
    [Some (k, (p, mv))] for the entry of key [k], whose value is the pair
    of the parent cube [p] and the move [mv] that led from [p] to [k]. *)
Definition find (parents : gmap (list Z) (list Z * Z)) (k : list Z)
    : option (list Z * (list Z * Z)) :=
  (fun v => (k, v)) <$> parents !! k.

(** One round of the loop over the moves in [get_solution]: the successor
    of [u] by [m] is recorded and queued unless it is already a key. *)
Definition visit (u : list Z)
    (st : list (list Z) * gmap (list Z) (list Z * Z)) (m : Z)
    : list (list Z) * gmap (list Z) (list Z * Z) :=
  let v := apply_move m u in
  match find st.2 v with
  | None => (st.1 ++ [v], <[v := (u, m)]> st.2) (* Not visited *)
  | Some _ => st
  end.

(** The BFS loop.  [fuel] bounds the number of cubes taken from the
    frontier; the result is [None] when it runs out, and otherwise the
    iterator [dst_itr] and the map [parents] as the loop leaves them. *)
Fixpoint bfs_loop (fuel : nat) (frontier : list (list Z))
    (parents : gmap (list Z) (list Z * Z))
    : option (option (list Z * (list Z * Z)) * gmap (list Z) (list Z * Z)) :=
  match frontier with
  | [] => Some (None, parents)
  | u :: frontier =>
      match fuel with
      | O => None
      | S fuel =>
          if is_solved u then Some (find parents u, parents)
          else
            let st := foldl (visit u) (frontier, parents)
                            (zrange 0 (Z.to_nat NUMMOVES)) in
            bfs_loop fuel st.1 st.2
      end
  end.

(** The loop that follows the parent links; [fuel] bounds the number of
    links followed. *)
Fixpoint backtrace (fuel : nat) (self : list Z)
    (parents : gmap (list Z) (list Z * Z))
    (dst_itr : option (list Z * (list Z * Z))) (solution : list Z)
    : option (list Z) :=
  match dst_itr with
  | None => Some solution
  | Some (k, (p, mv)) =>
      if rc_equal k self then Some solution
      else
        match fuel with
        | O => None
        | S fuel => backtrace fuel self parents (find parents p) (mv :: solution)
        end
  end.

(** [get_solution] on the cube [self]; [solution] is the list passed by
    reference, the result is that list after the call. *)
Definition get_solution (fuel : nat) (self : list Z) (solution : list Z)
    : option (list Z) :=
  let frontier := [self] in
  let parents : gmap (list Z) (list Z * Z) := <[self := (self, NUMMOVES)]> ∅ in
  match bfs_loop fuel frontier parents with
  | None => None
  | Some (dst_itr, parents) => backtrace fuel self parents dst_itr solution
  end.

(** ** Well-formed inputs *)

Definition valid_move (m : Z) : Prop := 0 <= m < NUMMOVES.
Definition valid_slot (i : Z) : Prop := 0 <= i < NUMSLOTS.
Definition valid_color (c : Z) : Prop := 0 <= c <= cY.

(** [mSlots] is an array of [NUMSLOTS] cells. *)
Definition wf_cube (mSlots : list Z) : Prop :=
  length mSlots = Z.to_nat NUMSLOTS.

(** ** The graph of cubes and moves *)

(** [reach s n v]: the cube [v] is obtained from [s] by [n] moves, each
    one of the six enumerators. *)
Definition reach (s : list Z) (n : nat) (v : list Z) : Prop :=
  exists ms, length ms = n /\ Forall valid_move ms /\ apply_moves s ms = v.

(** [dist s n v]: [n] is the least number of moves leading from [s] to [v]. *)
Definition dist (s : list Z) (n : nat) (v : list Z) : Prop :=
  reach s n v /\ forall j, (j < n)%nat -> ~ reach s j v.

(** The cubes at the end of the paths of length [n], listed. *)
Fixpoint layer (s : list Z) (n : nat) : list (list Z) :=
  match n with
  | O => [s]
  | S n =>
      flat_map (fun u => map (fun m => apply_move m u)
                             (zrange 0 (Z.to_nat NUMMOVES)))
               (layer s n)
  end.

(** The invariant of the BFS loop of [get_solution] called on [self],
    with [U] a set of cubes that bounds the keys of [parents]: the frontier
    is [A ++ B], the cubes of [A] are at distance [d] from [self] and those
    of [B] at distance [d + 1]; every key other than [self] is linked to a
    key one move closer to [self]; every cube at distance [d] or less is a
    key; and every key that has left the frontier is not solved and has all
    its successors among the keys. *)
Record bfs_inv (self : list Z) (U : gset (list Z))
    (d : nat) (A B : list (list Z))
    (P : gmap (list Z) (list Z * Z)) : Prop := {
  inv_self : P !! self = Some (self, NUMMOVES);
  inv_link : forall v u m,
    P !! v = Some (u, m) -> v <> self ->
    valid_move m /\ v = apply_move m u /\ is_Some (P !! u) /\
    exists k, dist self k u /\ dist self (S k) v;
  inv_A : forall v, In v A -> dist self d v;
  inv_B : forall v, In v B -> dist self (S d) v;
  inv_front : forall v, In v (A ++ B) -> is_Some (P !! v);
  inv_full : forall v k, dist self k v -> (k <= d)%nat -> is_Some (P !! v);
  inv_done : forall v,
    is_Some (P !! v) -> ~ In v (A ++ B) ->
    is_solved v = false /\
    forall m, valid_move m -> is_Some (P !! apply_move m v);
  inv_U : forall v, is_Some (P !! v) -> v ∈ U
}.

Arguments inv_self {self U d A B P}.
Arguments inv_link {self U d A B P}.
Arguments inv_A {self U d A B P}.
Arguments inv_B {self U d A B P}.
Arguments inv_front {self U d A B P}.
Arguments inv_full {self U d A B P}.
Arguments inv_done {self U d A B P}.
Arguments inv_U {self U d A B P}.

(** ** Cubes and cubelets *)

(** All lists of [n] cells taken from [l]. *)
Fixpoint all_lists (l : list Z) (n : nat) : list (list Z) :=
  match n with
  | O => [[]]
  | S n => flat_map (fun x => map (cons x) (all_lists l n)) l
  end.

(** The three facelets of the cubelet at position [p], in slots [3p],
    [3p + 1] and [3p + 2]. *)
Definition cubelet_at (s : list Z) (p : nat) : Z * Z * Z :=
  (nth (3 * p) s 0%Z, nth (3 * p + 1) s 0%Z, nth (3 * p + 2) s 0%Z).

(** The ways a move can relabel the three faces of a cubelet. *)
Definition rearrangements (t : Z * Z * Z) : list (Z * Z * Z) :=
  let '(a, b, c) := t in
  [(a, b, c); (a, c, b); (b, a, c); (b, c, a); (c, a, b); (c, b, a)].

(** The cubelets of a brand new cube at positions 0 to 6, turned every
    way.  Position 7 (back, right, up) is left out: no move touches it. *)
Definition loose_cubelets : list (Z * Z * Z) :=
  flat_map (fun p => rearrangements (cubelet_at RubiksCube p)) (seq 0 7).

(** A cube is assembled when its positions 0 to 6 hold such cubelets and
    position 7 holds the cubelet a brand new cube has there. *)
Definition assembled (s : list Z) : Prop :=
  wf_cube s /\
  (forall p, (p < 7)%nat -> In (cubelet_at s p) loose_cubelets) /\
  cubelet_at s 7 = cubelet_at RubiksCube 7.

(** ** Labels, hashing and the driver *)

(** [get_slot_str]: the three letters of the cubelet position, the one of
    the face axis in brackets. *)
Definition get_slot_str (slot : Z) : string :=
  let s := slot / 3 in
  let str := [ (if Z.land (Z.shiftr s 2) 1 =? 0 then "F" else "B");
               (if Z.land (Z.shiftr s 1) 1 =? 0 then "L" else "R");
               (if Z.land s 1 =? 0 then "D" else "U") ] in
  let str :=
    <[Z.to_nat (slot mod 3) :=
        ("(" +:+ nth (Z.to_nat (slot mod 3)) str "") +:+ ")"]> str in
  (nth 0 str "" +:+ nth 1 str "") +:+ nth 2 str "".

(** The lambda [get_color_str] of [get_facelet_str]: the [default] branch
    falls through to the empty string. *)
Definition get_color_str (c : Z) : string :=
  if c =? cR then "R"
  else if c =? cG then "G"
  else if c =? cB then "B"
  else if c =? cC then "C"
  else if c =? cM then "M"
  else if c =? cY then "Y"
  else "".

(** [get_facelet_str] *)
Definition get_facelet_str (cid : Z) : string :=
  (get_color_str (Z.land (Z.shiftr cid 6) 7) +:+
   get_color_str (Z.land (Z.shiftr cid 3) 7)) +:+
  get_color_str (Z.land cid 7).

(** [to_string] (compiled under [USE_STR_HASH]) *)
Definition to_string (mSlots : list Z) : string :=
  foldl (fun res slot => res +:+ get_facelet_str (at_ mSlots slot))
        "" (zrange 0 (Z.to_nat NUMSLOTS)).

(** [RubiksCubeHash::operator()], the variant compiled by default;
    [size_t] is taken to be 64 bits wide and [0xFFF] is 4095. *)
Definition RubiksCubeHash (mSlots : list Z) : Z :=
  foldl (fun hash i => (hash * 4095 + at_ mSlots i) mod 2 ^ 64)
        0 (zrange 0 (Z.to_nat NUMSLOTS)).

(** [monkey_play].  The calls of [random()] are an input of the model:
    [random k] is the value returned by the call number [k] after
    [srand]; the C library returns non-negative values, on which [%] is
    [Z.rem].  The result is the cube after the loop and the value
    returned. *)
Definition monkey_play (random : nat -> Z) (r : list Z) : list Z * Z :=
  let nmoves := Z.rem (random 0%nat) 200 in
  (foldl (fun r i =>
            let move := Z.rem (random (S (Z.to_nat i))) NUMMOVES in
            apply_move move r)
         r (zrange 0 (Z.to_nat nmoves)),
   nmoves).

(** [main], without its printing: the jumbled cube, the solution found
    for it and the cube after the replay of the solution. *)
Definition main (random : nat -> Z) (fuel : nat)
    : option (list Z * list Z * list Z) :=
  let r := RubiksCube in
  let r := (monkey_play random r).1 in
  match get_solution fuel r [] with
  | None => None
  | Some solution => Some (r, solution, apply_moves r solution)
  end.

(** * Basic facts *)

Lemma zrange_In lo n x : In x (zrange lo n) <-> lo <= x < lo + Z.of_nat n.
Proof.
  unfold zrange. rewrite in_map_iff. split.
  - intros (k & <- & Hk). apply in_seq in Hk. lia.
  - intros H. exists (Z.to_nat (x - lo)). split; [lia|].
    apply in_seq. lia.
Qed.

Lemma valid_move_cases m :
  valid_move m ->
  m = FC \/ m = FCC \/ m = DC \/ m = DCC \/ m = LC \/ m = LCC.
Proof. unfold valid_move, NUMMOVES, FC, FCC, DC, DCC, LC, LCC. lia. Qed.

Lemma valid_slot_cases i :
  valid_slot i -> In i (zrange 0 (Z.to_nat NUMSLOTS)).
Proof. intros H. apply zrange_In. unfold valid_slot, NUMSLOTS in *. lia. Qed.

Lemma valid_color_cases c :
  valid_color c -> c = cR \/ c = cG \/ c = cB \/ c = cC \/ c = cM \/ c = cY.
Proof. unfold valid_color, cR, cG, cB, cC, cM, cY. lia. Qed.

Ltac move_cases m H :=
  destruct (valid_move_cases m H) as [->|[->|[->|[->|[->| ->]]]]].

Ltac color_cases c H :=
  destruct (valid_color_cases c H) as [->|[->|[->|[->|[->| ->]]]]].

(** Name the 24 cells of a well-formed cube. *)
Ltac cube_cells s H :=
  unfold wf_cube in H; change (Z.to_nat NUMSLOTS) with 24%nat in H;
  do 24 (destruct s as [|? s]; [discriminate H|]);
  destruct s; [clear H|discriminate H].

Lemma wf_RubiksCube : wf_cube RubiksCube.
Proof. reflexivity. Qed.

Lemma wf_apply_move m s : wf_cube s -> wf_cube (apply_move m s).
Proof.
  intros H. unfold apply_move.
  destruct (_ || _); [exact H|].
  unfold wf_cube, zrange. now rewrite !length_map, length_seq.
Qed.

Lemma wf_apply_moves ms : forall s, wf_cube s -> wf_cube (apply_moves s ms).
Proof.
  induction ms as [|m ms IH]; intros s H; [exact H|].
  apply IH, wf_apply_move, H.
Qed.

Lemma apply_moves_app s ms ms' :
  apply_moves s (ms ++ ms') = apply_moves (apply_moves s ms) ms'.
Proof. apply foldl_app. Qed.

(** ** The model at work *)

Example Move_FC :
  nth 0 Move [] =
  [3; 5; 4; 9; 11; 10; 0; 2; 1; 6; 8; 7;
   12; 13; 14; 15; 16; 17; 18; 19; 20; 21; 22; 23].
Proof. reflexivity. Qed.

Example Move_FCC :
  nth 1 Move [] =
  [6; 8; 7; 0; 2; 1; 9; 11; 10; 3; 5; 4;
   12; 13; 14; 15; 16; 17; 18; 19; 20; 21; 22; 23].
Proof. reflexivity. Qed.

Example new_cube :
  RubiksCube =
  [20; 160; 258; 21; 168; 322; 28; 224; 259; 29; 232; 323;
   84; 161; 266; 85; 169; 330; 92; 225; 267; 93; 233; 331].
Proof. reflexivity. Qed.

Example FC_on_new_cube :
  apply_move FC RubiksCube =
  [21; 322; 168; 29; 323; 232; 20; 258; 160; 28; 259; 224;
   84; 161; 266; 85; 169; 330; 92; 225; 267; 93; 233; 331].
Proof. reflexivity. Qed.

Example solved_or_not :
  is_solved RubiksCube = true /\ is_solved (apply_move FC RubiksCube) = false.
Proof. split; reflexivity. Qed.

Example solve_new_cube : get_solution 1%nat RubiksCube [] = Some [].
Proof. reflexivity. Qed.

Example solve_after_FC :
  get_solution 3%nat (apply_move FC RubiksCube) [] = Some [FCC].
Proof. reflexivity. Qed.

Example solve_after_three :
  get_solution 200%nat (apply_moves RubiksCube [FC; LC; DC]) []
  = Some [DCC; LCC; FCC].
Proof. vm_compute. reflexivity. Qed.

Example solve_out_of_fuel :
  get_solution 3%nat (apply_moves RubiksCube [FC; LC; DC]) [] = None.
Proof. vm_compute. reflexivity. Qed.

(** The table is built once: a second call of [init_moves] returns at its
    first test. *)
Lemma init_moves_idempotent : init_moves Move = Move.
Proof. reflexivity. Qed.

(** What the loop of [apply_move] stores in each cell. *)
Lemma apply_move_at m s i :
  valid_move m -> valid_slot i ->
  at_ (apply_move m s) i = at_ s (at2 Move m i).
Proof.
  intros Hm Hi. apply valid_slot_cases in Hi.
  move_cases m Hm; vm_compute in Hi;
    repeat (destruct Hi as [<-|Hi]; [reflexivity|]); destruct Hi.
Qed.

Lemma forallb_ext_in {A} (f g : A -> bool) (l : list A) :
  (forall x, In x l -> f x = g x) -> forallb f l = forallb g l.
Proof.
  induction l as [|a l IH]; intros H; [reflexivity|].
  simpl. rewrite (H a (or_introl eq_refl)). f_equal.
  apply IH. intros x Hx. apply H. now right.
Qed.

Lemma get_slot_num_valid x y z f :
  0 <= x < 2 -> 0 <= y < 2 -> 0 <= z < 2 -> 0 <= f < 3 ->
  valid_slot (get_slot_num x y z f).
Proof.
  intros Hx Hy Hz Hf.
  assert (x = 0 \/ x = 1) as [->| ->] by lia;
  assert (y = 0 \/ y = 1) as [->| ->] by lia;
  assert (z = 0 \/ z = 1) as [->| ->] by lia;
  assert (f = 0 \/ f = 1 \/ f = 2) as [->|[->| ->]] by lia;
  vm_compute; split; congruence.
Qed.

(** A move identifier either passes the guard of [apply_move] or leaves
    the cube alone. *)
Lemma apply_move_guard m s : valid_move m \/ apply_move m s = s.
Proof.
  unfold apply_move, valid_move.
  destruct (m >=? NUMMOVES) eqn:E1; [now right|].
  destruct (m <? 0) eqn:E2; [now right|].
  left. rewrite Z.geb_leb in E1. apply Z.leb_gt in E1.
  apply Z.ltb_ge in E2. lia.
Qed.

(** Permutation of two lists written out cell by cell. *)
Ltac perm_cells :=
  repeat lazymatch goal with
  | |- Permutation [] [] => apply perm_nil
  | |- Permutation (?x :: ?l) ?r =>
      let rec go pre post :=
        lazymatch post with
        | x :: ?tl =>
            change r with (pre ++ x :: tl);
            apply (Permutation_cons_app pre tl x); simpl app
        | ?y :: ?tl =>
            let pre' := eval simpl in (pre ++ [y]) in go pre' tl
        end in
      go (@nil Z) r
  end.

Lemma apply_move_perm m s : wf_cube s -> Permutation (apply_move m s) s.
Proof.
  intros Hs. destruct (apply_move_guard m s) as [Hm| ->]; [|reflexivity].
  cube_cells s Hs. move_cases m Hm; vm_compute; perm_cells.
Qed.

Lemma apply_moves_perm ms :
  forall s, wf_cube s -> Permutation (apply_moves s ms) s.
Proof.
  induction ms as [|m ms IH]; intros s Hs; [reflexivity|].
  simpl. etransitivity; [apply IH, wf_apply_move, Hs|].
  apply apply_move_perm, Hs.
Qed.

(** The nested loops of [is_solved], slot by slot. *)
Lemma is_solved_spec s :
  is_solved s = true <->
  forall x y z, 0 <= x < 2 -> 0 <= y < 2 -> 0 <= z < 2 ->
    get_facelet_color (at_ s (get_slot_num x y z 0))
      = get_facelet_color (at_ s (get_slot_num x 0 0 0)) /\
    get_facelet_color (at_ s (get_slot_num x y z 1))
      = get_facelet_color (at_ s (get_slot_num 0 y 0 1)) /\
    get_facelet_color (at_ s (get_slot_num x y z 2))
      = get_facelet_color (at_ s (get_slot_num 0 0 z 2)).
Proof.
  split.
  - intros H x y z Hx Hy Hz. unfold is_solved in H.
    rewrite forallb_forall in H.
    specialize (H x (proj2 (zrange_In 0 2 x) Hx)).
    rewrite forallb_forall in H.
    specialize (H y (proj2 (zrange_In 0 2 y) Hy)).
    rewrite forallb_forall in H.
    specialize (H z (proj2 (zrange_In 0 2 z) Hz)).
    rewrite forallb_forall in H.
    repeat split.
    + specialize (H 0). apply Z.eqb_eq, H, zrange_In. simpl. lia.
    + specialize (H 1). apply Z.eqb_eq, H, zrange_In. simpl. lia.
    + specialize (H 2). apply Z.eqb_eq, H, zrange_In. simpl. lia.
  - intros H. unfold is_solved.
    apply forallb_forall. intros x Hx. apply zrange_In in Hx.
    apply forallb_forall. intros y Hy. apply zrange_In in Hy.
    apply forallb_forall. intros z Hz. apply zrange_In in Hz.
    apply forallb_forall. intros f Hf. apply zrange_In in Hf.
    destruct (H x y z) as (H0 & H1 & H2); try (simpl in *; lia).
    apply Z.eqb_eq.
    assert (f = 0 \/ f = 1 \/ f = 2) as [->|[->| ->]] by (simpl in Hf; lia);
      assumption.
Qed.

(** * The cube state model *)

(** ** Facelet identifiers *)

(** C10. Packing three colors and reading the primary color back gives the
    first color.  The three 3-bit fields do not overlap: the two neighbor
    colors are read back from their own fields (the shifts and masks of
    [get_facelet_str]), hence two valid triples with the same identifier
    are the same triple. *)
Theorem facelet_id_roundtrip c1 c2 c3 :
  valid_color c1 -> valid_color c2 -> valid_color c3 ->
  get_facelet_color (get_facelet_id c1 c2 c3) = c1 /\
  Z.land (Z.shiftr (get_facelet_id c1 c2 c3) 3) 7 = c2 /\
  Z.land (get_facelet_id c1 c2 c3) 7 = c3 /\
  (forall d1 d2 d3,
      valid_color d1 -> valid_color d2 -> valid_color d3 ->
      get_facelet_id c1 c2 c3 = get_facelet_id d1 d2 d3 ->
      c1 = d1 /\ c2 = d2 /\ c3 = d3).
Proof.
  assert (fields : forall a b c,
    valid_color a -> valid_color b -> valid_color c ->
    get_facelet_color (get_facelet_id a b c) = a /\
    Z.land (Z.shiftr (get_facelet_id a b c) 3) 7 = b /\
    Z.land (get_facelet_id a b c) 7 = c).
  { intros a b c Ha Hb Hc.
    color_cases a Ha; color_cases b Hb; color_cases c Hc;
      repeat split; reflexivity. }
  intros H1 H2 H3.
  destruct (fields c1 c2 c3 H1 H2 H3) as (E1 & E2 & E3).
  split; [exact E1|]. split; [exact E2|]. split; [exact E3|].
  intros d1 d2 d3 G1 G2 G3 E.
  destruct (fields d1 d2 d3 G1 G2 G3) as (F1 & F2 & F3).
  rewrite <- E in F1, F2, F3. repeat split; congruence.
Qed.

Lemma facelet_id_roundtrip_witness :
  get_facelet_color (get_facelet_id cG cC cY) = cG /\
  Z.land (Z.shiftr (get_facelet_id cG cC cY) 3) 7 = cC /\
  Z.land (get_facelet_id cG cC cY) 7 = cY /\
  (forall d1 d2 d3,
      valid_color d1 -> valid_color d2 -> valid_color d3 ->
      get_facelet_id cG cC cY = get_facelet_id d1 d2 d3 ->
      cG = d1 /\ cC = d2 /\ cY = d3).
Proof.
  apply (facelet_id_roundtrip cG cC cY);
    unfold valid_color, cG, cC, cY; lia.
Defined.

(** ** The move table *)

(** C6. In the table built by [init_moves], the row of each
    counter-clockwise move undoes the row of its clockwise counterpart at
    every slot. *)
Theorem ccw_row_inverts_cw_row i :
  valid_slot i ->
  at2 Move FCC (at2 Move FC i) = i /\
  at2 Move LCC (at2 Move LC i) = i /\
  at2 Move DCC (at2 Move DC i) = i.
Proof.
  intros Hi. apply valid_slot_cases in Hi. vm_compute in Hi.
  repeat (destruct Hi as [<-|Hi]; [repeat split; reflexivity|]).
  destruct Hi.
Qed.

Lemma ccw_row_inverts_cw_row_witness :
  at2 Move FCC (at2 Move FC 4) = 4 /\
  at2 Move LCC (at2 Move LC 4) = 4 /\
  at2 Move DCC (at2 Move DC 4) = 4.
Proof.
  apply (ccw_row_inverts_cw_row 4). unfold valid_slot, NUMSLOTS. lia.
Defined.

(** ** Applying moves *)

(** C9. A move identifier outside the six enumerators leaves the cube as
    it is. *)
Theorem apply_move_out_of_range s m :
  m >= NUMMOVES \/ m < 0 -> apply_move m s = s.
Proof.
  intros H. unfold apply_move.
  destruct (m >=? NUMMOVES) eqn:E1; [reflexivity|].
  destruct (m <? 0) eqn:E2; [reflexivity|].
  rewrite Z.geb_leb in E1. apply Z.leb_gt in E1. apply Z.ltb_ge in E2. lia.
Qed.

Lemma apply_move_out_of_range_witness :
  apply_move NUMMOVES (apply_move FC RubiksCube) = apply_move FC RubiksCube /\
  apply_move (-1) (apply_move FC RubiksCube) = apply_move FC RubiksCube.
Proof.
  split.
  - apply (apply_move_out_of_range (apply_move FC RubiksCube) NUMMOVES).
    left. unfold NUMMOVES. lia.
  - apply (apply_move_out_of_range (apply_move FC RubiksCube) (-1)).
    right. lia.
Defined.

Lemma apply_inverse_l m s :
  wf_cube s -> valid_move m -> apply_move (inverse m) (apply_move m s) = s.
Proof.
  intros Hs Hm. cube_cells s Hs. move_cases m Hm; reflexivity.
Qed.

(** C4. A move followed by its inverse gives the cube back. *)
Theorem apply_move_inverse s m :
  wf_cube s -> valid_move m ->
  apply_move (inverse m) (apply_move m s) = s.
Proof.
  intros Hs Hm. cube_cells s Hs.
  move_cases m Hm; vm_compute; reflexivity.
Qed.

Lemma apply_move_inverse_witness :
  apply_move (inverse LC) (apply_move LC (apply_move DCC RubiksCube))
  = apply_move DCC RubiksCube.
Proof.
  apply (apply_move_inverse (apply_move DCC RubiksCube) LC).
  - reflexivity.
  - unfold valid_move, LC, NUMMOVES. lia.
Defined.

(** C8. Each clockwise move has order four: four applications in a row
    give the cube back. *)
Theorem clockwise_four_times s m :
  wf_cube s -> m = FC \/ m = LC \/ m = DC ->
  apply_move m (apply_move m (apply_move m (apply_move m s))) = s.
Proof.
  intros Hs Hm. cube_cells s Hs.
  destruct Hm as [->|[->| ->]]; reflexivity.
Qed.

Lemma clockwise_four_times_witness :
  apply_move FC (apply_move FC (apply_move FC (apply_move FC RubiksCube)))
  = RubiksCube.
Proof.
  apply (clockwise_four_times RubiksCube FC).
  - reflexivity.
  - left. reflexivity.
Defined.

(** C1. [apply_move] stores in slot [i] the facelet that was in slot
    [Move[m][i]]: the facelet of slot [i] does not go to slot [Move[m][i]].
    On a brand new cube and [FC], the table sends slot 0 to slot 3, yet
    after the move slot 3 holds the facelet that was in slot 9, which is
    not the one that was in slot 0. *)
Theorem apply_move_FC_new_cube :
  (forall m s i, valid_move m -> valid_slot i ->
     at_ (apply_move m s) i = at_ s (at2 Move m i)) /\
  at2 Move FC 0 = 3 /\
  at_ (apply_move FC RubiksCube) (at2 Move FC 0) = at_ RubiksCube 9 /\
  at_ RubiksCube 0 = get_facelet_id cR cB cM /\
  at_ RubiksCube 9 = get_facelet_id cR cC cY /\
  at_ (apply_move FC RubiksCube) (at2 Move FC 0) <> at_ RubiksCube 0.
Proof.
  split; [exact apply_move_at|].
  repeat split. vm_compute. discriminate.
Qed.

(** C7. Moves only permute the facelet identifiers: a cube obtained from a
    brand new one by any sequence of moves holds the same identifiers, with
    the same multiplicities, and so does any cube after a single move. *)
Theorem facelets_conserved :
  (forall ms, Permutation (apply_moves RubiksCube ms) RubiksCube) /\
  (forall s m, wf_cube s -> Permutation (apply_move m s) s).
Proof.
  split.
  - intros ms. apply apply_moves_perm, wf_RubiksCube.
  - intros s m Hs. apply apply_move_perm, Hs.
Qed.

(** ** The solved test *)

(** C5. [is_solved] holds exactly when every slot shows the primary color
    of the reference slot of its face axis: the slot with the same
    coordinate along that axis and 0 for the other two.  Its answer depends
    on the primary colors only: two cubes showing the same primary color in
    every slot get the same answer, whatever the neighbor colors are. *)
Theorem is_solved_iff s :
  (is_solved s = true <->
   forall x y z, 0 <= x < 2 -> 0 <= y < 2 -> 0 <= z < 2 ->
     get_facelet_color (at_ s (get_slot_num x y z 0))
       = get_facelet_color (at_ s (get_slot_num x 0 0 0)) /\
     get_facelet_color (at_ s (get_slot_num x y z 1))
       = get_facelet_color (at_ s (get_slot_num 0 y 0 1)) /\
     get_facelet_color (at_ s (get_slot_num x y z 2))
       = get_facelet_color (at_ s (get_slot_num 0 0 z 2))) /\
  (forall s',
     (forall i, valid_slot i ->
        get_facelet_color (at_ s i) = get_facelet_color (at_ s' i)) ->
     is_solved s = is_solved s').
Proof.
  split; [apply is_solved_spec|].
  - intros s' H. unfold is_solved.
    apply forallb_ext_in. intros x Hx. apply zrange_In in Hx.
    apply forallb_ext_in. intros y Hy. apply zrange_In in Hy.
    apply forallb_ext_in. intros z Hz. apply zrange_In in Hz.
    apply forallb_ext_in. intros f Hf. apply zrange_In in Hf.
    simpl in Hx, Hy, Hz, Hf.
    rewrite <- !H; [reflexivity| |].
    + apply get_slot_num_valid; try lia;
        destruct (f =? 0), (f =? 1), (f =? 2); lia.
    + apply get_slot_num_valid; lia.
Qed.

(** * The graph searched by [get_solution] *)

Local Open Scope nat_scope.

Lemma valid_move_zrange m :
  In m (zrange 0 (Z.to_nat NUMMOVES)) <-> valid_move m.
Proof. rewrite zrange_In. unfold valid_move, NUMMOVES. simpl. lia. Qed.

Lemma valid_move_inverse m : valid_move m -> valid_move (inverse m).
Proof.
  intros H. move_cases m H; vm_compute; split; congruence.
Qed.

Lemma wf_apply_valid_move m s : valid_move m -> wf_cube (apply_move m s).
Proof.
  intros H. unfold apply_move, valid_move in *.
  destruct (m >=? NUMMOVES)%Z eqn:E1.
  { rewrite Z.geb_leb in E1. apply Z.leb_le in E1. lia. }
  destruct (m <? 0)%Z eqn:E2.
  { apply Z.ltb_lt in E2. lia. }
  unfold wf_cube, zrange. simpl orb. cbv iota.
  now rewrite !length_map, length_seq.
Qed.

Section Reach.

Variable s : list Z.

Lemma reach_O : reach s 0 s.
Proof. exists []. repeat split. constructor. Qed.

Lemma reach_S n u m :
  reach s n u -> valid_move m -> reach s (S n) (apply_move m u).
Proof.
  intros (ms & Hlen & Hv & <-) Hm. exists (ms ++ [m]).
  rewrite length_app, Forall_app, apply_moves_app. simpl.
  repeat split; auto. lia.
Qed.

Lemma reach_O_inv v : reach s 0 v -> v = s.
Proof.
  intros (ms & Hlen & _ & <-).
  destruct ms; [reflexivity|discriminate].
Qed.

Lemma reach_S_inv n v :
  reach s (S n) v ->
  exists u m, reach s n u /\ valid_move m /\ v = apply_move m u.
Proof.
  intros (ms & Hlen & Hv & <-).
  destruct (exists_last (l := ms)) as (ms' & m & ->).
  { intros ->. discriminate. }
  rewrite length_app in Hlen. simpl in Hlen.
  apply Forall_app in Hv as [Hv Hm].
  exists (apply_moves s ms'), m. split; [|split].
  - exists ms'. split; [lia|]. split; [exact Hv|reflexivity].
  - now apply Forall_inv in Hm.
  - now rewrite apply_moves_app.
Qed.

Lemma layer_reach n : forall v, In v (layer s n) <-> reach s n v.
Proof.
  induction n as [|n IH]; intros v; cbn [layer].
  - split.
    + intros [<-|[]]. apply reach_O.
    + intros H. left. symmetry. now apply reach_O_inv.
  - rewrite in_flat_map. split.
    + intros (u & Hu & Hv). apply in_map_iff in Hv as (m & <- & Hm).
      apply reach_S; [now apply IH|now apply valid_move_zrange].
    + intros H. apply reach_S_inv in H as (u & m & Hu & Hm & ->).
      exists u. split; [now apply IH|].
      apply in_map_iff. exists m. split; [reflexivity|].
      now apply valid_move_zrange.
Qed.

Lemma reach_dec n v : {reach s n v} + {~ reach s n v}.
Proof.
  destruct (In_dec (fun a b : list Z => decide (a = b)) v (layer s n))
    as [H|H].
  - left. now apply layer_reach.
  - right. intros H'. apply H. now apply layer_reach.
Qed.

(** A cube that can be reached has a distance. *)
Lemma reach_dist n v : reach s n v -> exists k, k <= n /\ dist s k v.
Proof.
  assert (search : forall b,
    (exists k, k < b /\ dist s k v) \/ (forall j, j < b -> ~ reach s j v)).
  { induction b as [|b [(k & Hk & Hd)|Hnone]].
    - right. intros j Hj. lia.
    - left. exists k. split; [lia|exact Hd].
    - destruct (reach_dec b v) as [Hb|Hb].
      + left. exists b. split; [lia|]. split; assumption.
      + right. intros j Hj Hr.
        destruct (Nat.eq_dec j b) as [-> |Hne]; [contradiction|].
        apply (Hnone j); [lia|exact Hr]. }
  intros H. destruct (search n) as [(k & Hk & Hd)|Hnone].
  - exists k. split; [lia|exact Hd].
  - exists n. split; [lia|]. split; assumption.
Qed.

Lemma dist_fun k k' v : dist s k v -> dist s k' v -> k = k'.
Proof.
  intros [H1 L1] [H2 L2].
  destruct (Nat.lt_trichotomy k k') as [H|[H|H]]; [|exact H|].
  - exfalso. now apply (L2 k).
  - exfalso. now apply (L1 k').
Qed.

Lemma dist_O : dist s 0 s.
Proof. split; [apply reach_O|]. intros j Hj. lia. Qed.

Lemma dist_O_inv v : dist s 0 v -> v = s.
Proof. intros [H _]. now apply reach_O_inv. Qed.

Lemma dist_S_inv k v :
  dist s (S k) v ->
  exists u m, dist s k u /\ valid_move m /\ v = apply_move m u.
Proof.
  intros [H L]. apply reach_S_inv in H as (u & m & Hu & Hm & ->).
  exists u, m. split; [|split; [exact Hm|reflexivity]].
  split; [exact Hu|].
  intros j Hj Hr. apply (L (S j)); [lia|]. now apply reach_S.
Qed.

(** One more move raises the distance by one at most. *)
Lemma dist_step k u m :
  dist s k u -> valid_move m ->
  exists k', k' <= S k /\ dist s k' (apply_move m u).
Proof. intros [H _] Hm. apply reach_dist. now apply reach_S. Qed.

End Reach.

(** Moves that fail the guard of [apply_move] can be dropped from a
    sequence. *)
Lemma apply_moves_valid ms :
  forall s, exists n, n <= length ms /\ reach s n (apply_moves s ms).
Proof.
  induction ms as [|m ms IH] using rev_ind; intros s.
  - exists 0. split; [lia|apply reach_O].
  - destruct (IH s) as (n & Hn & Hr).
    rewrite apply_moves_app, length_app. simpl.
    destruct (apply_move_guard m (apply_moves s ms)) as [Hm| ->].
    + exists (S n). split; [lia|]. now apply reach_S.
    + exists n. split; [lia|exact Hr].
Qed.

(** Paths can be walked backwards, with the inverse moves. *)
Lemma reach_sym s n v : wf_cube s -> reach s n v -> reach v n s.
Proof.
  intros Hs (ms & Hlen & Hv & <-).
  exists (rev (map inverse ms)).
  rewrite length_rev, length_map. split; [exact Hlen|]. split.
  - clear Hlen. induction Hv as [|m ms Hm _ IH]; simpl; [constructor|].
    apply Forall_app. split; [exact IH|].
    constructor; [now apply valid_move_inverse|constructor].
  - clear Hlen. revert s Hs.
    induction ms as [|m ms IH]; intros s Hs; [reflexivity|].
    inversion Hv as [|? ? Hm Hv']; subst. simpl.
    rewrite apply_moves_app. change (apply_moves s (m :: ms))
      with (apply_moves (apply_move m s) ms).
    rewrite (IH Hv' (apply_move m s)) by now apply wf_apply_move.
    simpl. now apply apply_inverse_l.
Qed.

(** * The search loop *)

Lemma find_None (P : gmap (list Z) (list Z * Z)) v :
  find P v = None <-> P !! v = None.
Proof. unfold find. apply fmap_None. Qed.

Lemma find_Some (P : gmap (list Z) (list Z * Z)) v x :
  P !! v = Some x -> find P v = Some (v, x).
Proof. unfold find. now intros ->. Qed.

(** The effect of the loop over the moves on the frontier and on
    [parents]: the successors of [u] that were not keys yet are appended to
    the frontier, in order, each with [u] and its move as value; nothing
    else changes. *)
Lemma visit_fold u ml :
  forall F (P : gmap (list Z) (list Z * Z)),
  exists new,
    (foldl (visit u) (F, P) ml).1 = F ++ new /\
    (forall v, In v new ->
       P !! v = None /\
       exists m, In m ml /\ v = apply_move m u /\
                 (foldl (visit u) (F, P) ml).2 !! v = Some (u, m)) /\
    (forall v x, P !! v = Some x ->
       (foldl (visit u) (F, P) ml).2 !! v = Some x) /\
    (forall v, is_Some ((foldl (visit u) (F, P) ml).2 !! v) ->
       is_Some (P !! v) \/ In v new) /\
    (forall m, In m ml ->
       is_Some ((foldl (visit u) (F, P) ml).2 !! apply_move m u)) /\
    size (foldl (visit u) (F, P) ml).2 = size P + length new.
Proof.
  induction ml as [|m ml IH]; intros F P.
  - exists []. simpl. rewrite app_nil_r.
    split; [reflexivity|]. split; [intros v []|].
    split; [auto|]. split; [auto|]. split; [intros m []|lia].
  - cbn [foldl]. unfold visit at 2 4 6 8 10 12. cbn [fst snd].
    destruct (find P (apply_move m u)) as [e|] eqn:Ef.
    + assert (Hin : is_Some (P !! apply_move m u)).
      { unfold find in Ef. destruct (P !! apply_move m u); [eauto|discriminate]. }
      destruct (IH F P) as (new & H1 & H2 & H3 & H4 & H5 & H6).
      exists new. split; [exact H1|]. split.
      { intros v Hv. destruct (H2 v Hv) as (Hn & m' & Hm' & Hvm & Hl).
        split; [exact Hn|]. exists m'. split; [now right|]. now split. }
      split; [exact H3|]. split; [exact H4|]. split; [|exact H6].
      intros m' [<-|Hm']; [|now apply H5].
      destruct Hin as [x Hx]. rewrite (H3 _ _ Hx). eauto.
    + apply find_None in Ef.
      destruct (IH (F ++ [apply_move m u]) (<[apply_move m u := (u, m)]> P))
        as (new & H1 & H2 & H3 & H4 & H5 & H6).
      exists (apply_move m u :: new).
      split; [rewrite H1, <- app_assoc; reflexivity|]. split.
      { intros v [<-|Hv].
        - split; [exact Ef|]. exists m. split; [now left|].
          split; [reflexivity|]. apply H3, lookup_insert_eq.
        - destruct (H2 v Hv) as (Hn & m' & Hm' & Hvm & Hl).
          apply lookup_insert_None in Hn as [Hn _].
          split; [exact Hn|]. exists m'. split; [now right|]. now split. }
      split.
      { intros v x Hx. apply H3. rewrite lookup_insert_ne; [exact Hx|].
        intros <-. rewrite Ef in Hx. discriminate. }
      split.
      { intros v Hv. destruct (H4 v Hv) as [Hs|Hs]; [|right; now right].
        apply lookup_insert_is_Some in Hs as [<-|[_ Hs]];
          [right; now left|now left]. }
      split.
      { intros m' [<-|Hm']; [|now apply H5].
        rewrite (H3 _ (u, m)); [eauto|apply lookup_insert_eq]. }
      rewrite H6, map_size_insert_None by exact Ef. simpl. lia.
Qed.

Lemma rc_equal_refl s : rc_equal s s = true.
Proof.
  unfold rc_equal. apply forallb_forall. intros i _. apply Z.eqb_refl.
Qed.

(** On arrays of [NUMSLOTS] cells [RubiksCubeEqual] is equality. *)
Lemma rc_equal_eq a b :
  wf_cube a -> wf_cube b -> rc_equal a b = true -> a = b.
Proof.
  unfold wf_cube, rc_equal. intros Ha Hb H.
  rewrite forallb_forall in H.
  apply (nth_ext a b 0%Z 0%Z); [congruence|].
  intros n Hn. specialize (H (Z.of_nat n)).
  unfold at_ in H. rewrite Nat2Z.id in H. apply Z.eqb_eq, H.
  apply zrange_In. lia.
Qed.

(** More fuel does not change the outcome of a loop that came to its end. *)
Lemma bfs_loop_mono fuel :
  forall F P r fuel',
    bfs_loop fuel F P = Some r -> fuel <= fuel' ->
    bfs_loop fuel' F P = Some r.
Proof.
  induction fuel as [|fuel IH]; intros F P r fuel' H Hle.
  - destruct F; [|discriminate]. now destruct fuel'.
  - destruct fuel' as [|fuel']; [lia|]. destruct F as [|u F]; [exact H|].
    cbn [bfs_loop] in *. destruct (is_solved u); [exact H|].
    apply (IH _ _ _ _ H). lia.
Qed.

Lemma backtrace_mono fuel :
  forall self P it solution r fuel',
    backtrace fuel self P it solution = Some r -> fuel <= fuel' ->
    backtrace fuel' self P it solution = Some r.
Proof.
  induction fuel as [|fuel IH]; intros self P it solution r fuel' H Hle.
  - destruct it as [[k [p mv]]|]; [|now destruct fuel'].
    cbn [backtrace] in H. destruct (rc_equal k self) eqn:E; [|discriminate].
    destruct fuel'; cbn [backtrace]; now rewrite E.
  - destruct fuel' as [|fuel']; [lia|].
    destruct it as [[k [p mv]]|]; [|exact H].
    cbn [backtrace] in *. destruct (rc_equal k self); [exact H|].
    apply (IH _ _ _ _ _ _ H). lia.
Qed.

Lemma get_solution_mono fuel fuel' self solution r :
  get_solution fuel self solution = Some r -> fuel <= fuel' ->
  get_solution fuel' self solution = Some r.
Proof.
  unfold get_solution. intros H Hle.
  destruct (bfs_loop fuel [self] _) as [[it P]|] eqn:E; [|discriminate].
  rewrite (bfs_loop_mono _ _ _ _ _ E Hle).
  now apply (backtrace_mono fuel).
Qed.

Section Search.

(** The cube [get_solution] is called on. *)
Variable self : list Z.
Hypothesis wf_self : wf_cube self.

(** A finite set of cubes that holds [self] and is closed under the
    moves; it bounds the number of keys of [parents]. *)
Variable U : gset (list Z).
Hypothesis U_self : self ∈ U.
Hypothesis U_closed : forall v m, v ∈ U -> apply_move m v ∈ U.

Local Abbreviation Inv := (bfs_inv self U).

Lemma Inv_init :
  Inv 0 [self] [] (<[self := (self, NUMMOVES)]> ∅).
Proof.
  constructor.
  - apply lookup_insert_eq.
  - intros v u m H Hne. rewrite lookup_insert_ne in H by congruence.
    rewrite lookup_empty in H. discriminate.
  - intros v [<-|[]]. apply dist_O.
  - intros v [].
  - intros v [<-|[]]. rewrite lookup_insert_eq. eauto.
  - intros v k Hd Hk. assert (k = 0) as -> by lia.
    apply dist_O_inv in Hd as ->. rewrite lookup_insert_eq. eauto.
  - intros v Hv Hn. exfalso. apply Hn.
    apply lookup_insert_is_Some in Hv as [<-|[_ Hv]]; [now left|].
    rewrite lookup_empty in Hv. now destruct Hv.
  - intros v Hv.
    apply lookup_insert_is_Some in Hv as [<-|[_ Hv]]; [exact U_self|].
    rewrite lookup_empty in Hv. now destruct Hv.
Qed.

Lemma Inv_size d A B P : Inv d A B P -> size P <= size U.
Proof.
  intros HI. rewrite <- (size_dom (D := gset (list Z))).
  apply subseteq_size. intros v Hv. apply elem_of_dom in Hv.
  now apply (inv_U HI).
Qed.

(** When the cubes at distance [d] are used up, those at distance
    [d + 1] take their place. *)
Lemma Inv_shift d B P : Inv d [] B P -> Inv (S d) B [] P.
Proof.
  intros HI. constructor.
  - apply (inv_self HI).
  - apply (inv_link HI).
  - apply (inv_B HI).
  - intros v [].
  - intros v Hv. rewrite app_nil_r in Hv. now apply (inv_front HI).
  - intros v k Hd Hk.
    destruct (Nat.eq_dec k (S d)) as [->|Hne].
    + destruct (dist_S_inv _ _ _ Hd) as (u & m & Hu & Hm & ->).
      assert (Hin : is_Some (P !! u)).
      { apply (inv_full HI u d Hu). lia. }
      apply (inv_done HI u Hin); [|exact Hm].
      simpl. intros HB. apply (inv_B HI) in HB.
      pose proof (dist_fun _ _ _ _ Hu HB). lia.
    + apply (inv_full HI v k Hd). lia.
  - intros v Hv Hn. apply (inv_done HI v Hv).
    now rewrite app_nil_r in Hn.
  - apply (inv_U HI).
Qed.

(** A successor met for the first time is one move further away. *)
Lemma fresh_dist d A B P u m :
  Inv d A B P -> dist self d u -> valid_move m ->
  P !! apply_move m u = None -> dist self (S d) (apply_move m u).
Proof.
  intros HI Hu Hm Hnone.
  destruct (dist_step _ _ _ _ Hu Hm) as (k & Hk & Hd).
  destruct (Nat.eq_dec k (S d)) as [->|Hne]; [exact Hd|].
  assert (Hin : is_Some (P !! apply_move m u)).
  { apply (inv_full HI _ k Hd). lia. }
  rewrite Hnone in Hin. now destruct Hin.
Qed.

(** One turn of the loop on a cube that is not solved. *)
Lemma Inv_visit d u A B P :
  Inv d (u :: A) B P -> is_solved u = false ->
  exists new,
    (foldl (visit u) (A ++ B, P) (zrange 0 (Z.to_nat NUMMOVES))).1
      = A ++ (B ++ new) /\
    size (foldl (visit u) (A ++ B, P) (zrange 0 (Z.to_nat NUMMOVES))).2
      = size P + length new /\
    Inv d A (B ++ new)
        (foldl (visit u) (A ++ B, P) (zrange 0 (Z.to_nat NUMMOVES))).2.
Proof.
  intros HI Hns.
  destruct (visit_fold u (zrange 0 (Z.to_nat NUMMOVES)) (A ++ B) P)
    as (new & H1 & H2 & H3 & H4 & H5 & H6).
  set (P' := (foldl (visit u) (A ++ B, P) (zrange 0 (Z.to_nat NUMMOVES))).2)
    in *.
  assert (Hmono : forall v, is_Some (P !! v) -> is_Some (P' !! v)).
  { intros v [x Hx]. rewrite (H3 v x Hx). eauto. }
  assert (Hu : dist self d u).
  { apply (inv_A HI). now left. }
  assert (Hnew : forall v, In v new ->
    exists m, valid_move m /\ v = apply_move m u /\
              P' !! v = Some (u, m) /\ dist self (S d) v).
  { intros v Hv. destruct (H2 v Hv) as (Hnone & m & Hm & -> & Hl).
    apply valid_move_zrange in Hm. exists m.
    split; [exact Hm|]. split; [reflexivity|]. split; [exact Hl|].
    now apply (fresh_dist d (u :: A) B P). }
  exists new. split; [now rewrite H1, app_assoc|]. split; [exact H6|].
  constructor.
  - apply H3, (inv_self HI).
  - intros v p m Hl Hne.
    destruct (H4 v (ex_intro _ _ Hl)) as [[x Hx]|Hv].
    + pose proof (H3 v x Hx) as Hx'. rewrite Hl in Hx'.
      injection Hx' as <-.
      destruct (inv_link HI v p m Hx Hne) as (G1 & G2 & G3 & G4).
      auto.
    + destruct (Hnew v Hv) as (m' & Hm' & Hvm & Hl' & Hd).
      rewrite Hl in Hl'. injection Hl' as -> ->.
      split; [exact Hm'|]. split; [exact Hvm|]. split.
      * apply Hmono, (inv_front HI). now left.
      * exists d. now split.
  - intros v Hv. apply (inv_A HI). now right.
  - intros v Hv. apply in_app_or in Hv as [Hv|Hv].
    + now apply (inv_B HI).
    + destruct (Hnew v Hv) as (m' & _ & _ & _ & Hd). exact Hd.
  - intros v Hv. rewrite app_assoc in Hv. apply in_app_or in Hv as [Hv|Hv].
    + apply Hmono, (inv_front HI). now right.
    + destruct (Hnew v Hv) as (m' & _ & _ & Hl & _). rewrite Hl. eauto.
  - intros v k Hd Hk. now apply Hmono, (inv_full HI v k).
  - intros v Hv Hn. rewrite app_assoc in Hn.
    destruct (H4 v Hv) as [Hold|Hv'].
    2:{ exfalso. apply Hn, in_or_app. now right. }
    destruct (decide (v = u)) as [->|Hne].
    + split; [exact Hns|]. intros m Hm.
      now apply H5, valid_move_zrange.
    + destruct (inv_done HI v Hold) as [G1 G2].
      { intros [Heq|Hin]; [congruence|].
        apply Hn, in_or_app. now left. }
      split; [exact G1|]. intros m Hm. now apply Hmono, G2.
  - intros v Hv. destruct (H4 v Hv) as [Hold|Hv'].
    + now apply (inv_U HI).
    + destruct (Hnew v Hv') as (m' & _ & -> & _ & _).
      apply U_closed, (inv_U HI), (inv_front HI).
      now left.
Qed.

(** With an empty frontier every cube within reach is a key, and none
    of them is solved. *)
Lemma Inv_closed d P :
  Inv d [] [] P ->
  forall n v, reach self n v -> is_Some (P !! v) /\ is_solved v = false.
Proof.
  intros HI.
  assert (Hkey : forall n v, reach self n v -> is_Some (P !! v)).
  { induction n as [|n IH]; intros v Hr.
    - apply reach_O_inv in Hr as ->. rewrite (inv_self HI). eauto.
    - apply reach_S_inv in Hr as (u & m & Hu & Hm & ->).
      apply (inv_done HI u); auto. }
  intros n v Hr. split; [now apply (Hkey n)|].
  apply (inv_done HI v); [now apply (Hkey n)|auto].
Qed.

(** The loop stops on a solved cube, with the invariant still in force,
    as soon as [fuel] exceeds the number of cubes that can still be
    taken from the frontier. *)
Lemma bfs_loop_finds fuel :
  forall d A B P,
    Inv d A B P ->
    (exists n g, reach self n g /\ is_solved g = true) ->
    size U + length (A ++ B) < fuel + size P ->
    exists d' A' B' P' dst,
      bfs_loop fuel (A ++ B) P = Some (find P' dst, P') /\
      is_solved dst = true /\
      Inv d' (dst :: A') B' P'.
Proof.
  induction fuel as [|fuel IH]; intros d A B P HI Hgoal Hm.
  { pose proof (Inv_size _ _ _ _ HI). lia. }
  assert (Hhead : exists d1 u A1 B1,
    A ++ B = u :: (A1 ++ B1) /\ Inv d1 (u :: A1) B1 P).
  { destruct A as [|u A]; [destruct B as [|u B]|].
    - exfalso. destruct Hgoal as (n & g & Hr & Hs).
      destruct (Inv_closed _ _ HI n g Hr) as [_ Hf]. congruence.
    - exists (S d), u, B, []. split; [now rewrite app_nil_r|].
      now apply Inv_shift.
    - exists d, u, A, B. now split. }
  destruct Hhead as (d1 & u & A1 & B1 & E & HI1).
  rewrite E in *. cbn [bfs_loop]. destruct (is_solved u) eqn:Hs.
  - exists d1, A1, B1, P, u. now split.
  - destruct (Inv_visit _ _ _ _ _ HI1 Hs) as (new & H1 & H2 & H3).
    cbv zeta. rewrite H1. apply (IH d1 A1 (B1 ++ new) _ H3 Hgoal).
    rewrite H2. cbn [length] in Hm. rewrite !length_app in *. lia.
Qed.

(** The first solved cube taken from the frontier is a nearest one. *)
Lemma Inv_nearest d dst A B P n g :
  Inv d (dst :: A) B P ->
  reach self n g -> is_solved g = true -> d <= n.
Proof.
  intros HI Hr Hs.
  destruct (reach_dist _ _ _ Hr) as (k & Hk & Hd).
  destruct (le_lt_dec d k) as [Hle|Hlt]; [lia|]. exfalso.
  assert (Hin : is_Some (P !! g)).
  { apply (inv_full HI g k Hd). lia. }
  destruct (inv_done HI g Hin) as [Hf _]; [|congruence].
  intros Hfront. apply in_app_or in Hfront as [HA|HB].
  - apply (inv_A HI) in HA.
    pose proof (dist_fun _ _ _ _ Hd HA). lia.
  - apply (inv_B HI) in HB.
    pose proof (dist_fun _ _ _ _ Hd HB). lia.
Qed.

(** Following the parent links from a key at distance [k] prepends a
    path of [k] moves from [self] to that key. *)
Lemma backtrace_path d A B P :
  Inv d A B P ->
  forall k v fuel solution,
    dist self k v -> is_Some (P !! v) -> k <= fuel ->
    exists path,
      backtrace fuel self P (find P v) solution = Some (path ++ solution) /\
      length path = k /\ Forall valid_move path /\
      apply_moves self path = v.
Proof.
  intros HI. induction k as [|k IH]; intros v fuel solution Hd Hin Hf.
  - apply dist_O_inv in Hd as ->.
    rewrite (find_Some _ _ _ (inv_self HI)).
    exists []. destruct fuel; cbn [backtrace]; rewrite rc_equal_refl;
      (split; [reflexivity|]); (split; [reflexivity|]);
      (split; [constructor|reflexivity]).
  - assert (Hne : v <> self).
    { intros ->. pose proof (dist_fun _ _ _ _ Hd (dist_O self)). lia. }
    destruct Hin as [[u m] Hl].
    destruct (inv_link HI v u m Hl Hne)
      as (Hm & Hv & Hu & k' & Hdu & Hdv).
    assert (k' = k) as ->.
    { pose proof (dist_fun _ _ _ _ Hd Hdv). lia. }
    rewrite (find_Some _ _ _ Hl).
    destruct fuel as [|fuel]; [lia|]. cbn [backtrace].
    destruct (rc_equal v self) eqn:Heq.
    { exfalso. apply Hne, rc_equal_eq; auto.
      rewrite Hv. now apply wf_apply_valid_move. }
    destruct (IH u fuel (m :: solution) Hdu Hu) as (path & G1 & G2 & G3 & G4);
      [lia|].
    exists (path ++ [m]). rewrite <- app_assoc. split; [exact G1|].
    rewrite length_app, Forall_app, apply_moves_app. cbn [length].
    split; [lia|]. split; [split; [exact G3|now constructor]|].
    simpl. now rewrite G4.
Qed.

(** [get_solution] on [self]: with enough fuel both loops come to their
    end, and the moves put in front of [solution] form a shortest path
    from [self] to a solved cube. *)
Lemma get_solution_path n0 g0 solution fuel :
  reach self n0 g0 -> is_solved g0 = true ->
  size U < fuel -> n0 <= fuel ->
  exists path,
    get_solution fuel self solution = Some (path ++ solution) /\
    Forall valid_move path /\
    is_solved (apply_moves self path) = true /\
    forall n g, reach self n g -> is_solved g = true -> length path <= n.
Proof.
  intros Hr Hs HU Hn0. unfold get_solution.
  destruct (bfs_loop_finds fuel 0 [self] [] _ Inv_init)
    as (d & A & B & P & dst & Hloop & Hdst & HI).
  { eauto. }
  { rewrite map_size_insert_None by apply lookup_empty.
    rewrite map_size_empty. simpl. lia. }
  change ([self] ++ []) with [self] in Hloop. rewrite Hloop.
  assert (Hd : dist self d dst).
  { apply (inv_A HI). now left. }
  assert (Hle : d <= n0).
  { exact (Inv_nearest _ _ _ _ _ _ _ HI Hr Hs). }
  destruct (backtrace_path _ _ _ _ HI d dst fuel solution Hd)
    as (path & G1 & G2 & G3 & G4).
  { apply (inv_front HI). now left. }
  { lia. }
  exists path. split; [exact G1|]. split; [exact G3|].
  split; [now rewrite G4|].
  intros n g Hrg Hsg. rewrite G2.
  exact (Inv_nearest _ _ _ _ _ _ _ HI Hrg Hsg).
Qed.

End Search.

(** * A finite set of cubes closed under the moves *)

Lemma all_lists_In l n :
  forall v, In v (all_lists l n) <->
            length v = n /\ forall x, In x v -> In x l.
Proof.
  induction n as [|n IH]; intros v; cbn [all_lists].
  - split.
    + intros [<-|[]]. split; [reflexivity|intros x []].
    + intros [H _]. destruct v; [now left|discriminate].
  - rewrite in_flat_map. split.
    + intros (x & Hx & Hv). apply in_map_iff in Hv as (w & <- & Hw).
      apply IH in Hw as [Hlen Hall]. split; [simpl; lia|].
      intros y [<-|Hy]; auto.
    + intros [Hlen Hall]. destruct v as [|x w]; [discriminate|].
      exists x. split; [apply Hall; now left|].
      apply in_map_iff. exists w. split; [reflexivity|].
      apply IH. split; [simpl in Hlen; lia|].
      intros y Hy. apply Hall. now right.
Qed.

(** The cubes made of the cells of [self] form such a set: a move only
    permutes the cells. *)
Lemma universe self :
  wf_cube self ->
  exists U : gset (list Z),
    self ∈ U /\ forall v m, v ∈ U -> apply_move m v ∈ U.
Proof.
  intros Hs. exists (list_to_set (all_lists self (Z.to_nat NUMSLOTS))).
  split.
  - apply elem_of_list_to_set, list_elem_of_In, all_lists_In. now split.
  - intros v m Hv.
    apply elem_of_list_to_set, list_elem_of_In, all_lists_In in Hv
      as [Hlen Hall].
    apply elem_of_list_to_set, list_elem_of_In, all_lists_In. split.
    + now apply wf_apply_move.
    + intros x Hx. apply Hall.
      eapply Permutation_in; [|exact Hx]. now apply apply_move_perm.
Qed.

(** * The solver *)

(** Whenever a solved cube is within reach of a well-formed cube,
    [get_solution] returns, for every large enough [fuel], one and the same
    sequence: a shortest sequence of valid moves leading to a solved
    cube. *)
Lemma shortest_path_found self n0 g0 :
  wf_cube self -> reach self n0 g0 -> is_solved g0 = true ->
  exists path,
    (exists fuel0, forall fuel, fuel0 <= fuel ->
       get_solution fuel self [] = Some path) /\
    Forall valid_move path /\
    is_solved (apply_moves self path) = true /\
    forall n g, reach self n g -> is_solved g = true -> length path <= n.
Proof.
  intros Hs Hr Hg. destruct (universe self Hs) as (U & HU1 & HU2).
  destruct (get_solution_path self Hs U HU1 HU2 n0 g0 []
              (Nat.max (S (size U)) n0) Hr Hg)
    as (path & G1 & G2 & G3 & G4); [lia|lia|].
  exists path. rewrite app_nil_r in G1. split; [|auto].
  exists (Nat.max (S (size U)) n0). intros fuel Hfuel.
  exact (get_solution_mono _ _ _ _ _ G1 Hfuel).
Qed.

Lemma is_solved_RubiksCube : is_solved RubiksCube = true.
Proof. reflexivity. Qed.

(** From a cube obtained by moves from a brand new one, the brand new cube
    is within reach. *)
Lemma reach_back ms :
  exists n, n <= length ms /\
            reach (apply_moves RubiksCube ms) n RubiksCube.
Proof.
  destruct (apply_moves_valid ms RubiksCube) as (n & Hn & Hr).
  exists n. split; [exact Hn|]. now apply reach_sym; [apply wf_RubiksCube|].
Qed.

(** C2. From every cube obtained from a brand new one by moves,
    [get_solution] returns a sequence of valid moves (the same one for
    every large enough bound on the number of turns of its loops), and
    replaying that sequence on the cube with [apply_move] gives a cube that
    passes [is_solved]. *)
Theorem get_solution_solves s ms :
  s = apply_moves RubiksCube ms ->
  exists solution,
    (exists fuel0, forall fuel, fuel0 <= fuel ->
       get_solution fuel s [] = Some solution) /\
    Forall valid_move solution /\
    is_solved (apply_moves s solution) = true.
Proof.
  intros ->. destruct (reach_back ms) as (n & _ & Hr).
  destruct (shortest_path_found _ n RubiksCube
              (wf_apply_moves ms _ wf_RubiksCube) Hr is_solved_RubiksCube)
    as (path & G1 & G2 & G3 & _).
  exists path. auto.
Qed.

Lemma get_solution_solves_witness :
  exists solution,
    (exists fuel0, forall fuel, fuel0 <= fuel ->
       get_solution fuel (apply_moves RubiksCube [FC; LC; DCC]) []
         = Some solution) /\
    Forall valid_move solution /\
    is_solved (apply_moves (apply_moves RubiksCube [FC; LC; DCC]) solution)
      = true.
Proof.
  apply (get_solution_solves (apply_moves RubiksCube [FC; LC; DCC])
                             [FC; LC; DCC]).
  reflexivity.
Defined.

(** * The only solved cube within reach of a brand new one *)

Ltac in_cells := solve [repeat (first [left; reflexivity | right])].

Lemma loose_rearrangements t t' :
  In t loose_cubelets -> In t' (rearrangements t) -> In t' loose_cubelets.
Proof.
  intros Ht Ht'. vm_compute in Ht.
  repeat (destruct Ht as [<-|Ht];
          [vm_compute in Ht';
           repeat (destruct Ht' as [<-|Ht']; [vm_compute; in_cells|]);
           destruct Ht'|]).
  destruct Ht.
Qed.

Lemma assembled_new : assembled RubiksCube.
Proof.
  split; [reflexivity|]. split; [|reflexivity].
  intros p Hp. do 7 (destruct p as [|p]; [vm_compute; in_cells|]). lia.
Qed.

Ltac rearranged H :=
  solve [apply (loose_rearrangements _ _ H); cbn [rearrangements]; in_cells].

(** After a move, a position holds a cubelet that was at some position
    before it, with its faces relabelled. *)
Ltac moved_cubelet :=
  lazymatch goal with
  | |- In (cubelet_at ?s ?p) _ =>
      let t := eval vm_compute in (cubelet_at s p) in
      change (In t loose_cubelets)
  end;
  match goal with
  | H : In _ loose_cubelets |- _ => rearranged H
  end.

Lemma assembled_move m s : assembled s -> assembled (apply_move m s).
Proof.
  intros HA. destruct (apply_move_guard m s) as [Hm| ->]; [|exact HA].
  destruct HA as (Hwf & Hc & H7).
  split; [now apply wf_apply_move|].
  pose proof (Hc 0 ltac:(lia)) as H0. pose proof (Hc 1 ltac:(lia)) as H1.
  pose proof (Hc 2 ltac:(lia)) as H2. pose proof (Hc 3 ltac:(lia)) as H3.
  pose proof (Hc 4 ltac:(lia)) as H4. pose proof (Hc 5 ltac:(lia)) as H5.
  pose proof (Hc 6 ltac:(lia)) as H6. clear Hc.
  cube_cells s Hwf. cbn [cubelet_at nth Nat.mul Nat.add] in *.
  vm_compute in H7. injection H7 as -> -> ->.
  move_cases m Hm.
  all: split; [|reflexivity].
  all: intros p Hp; do 7 (destruct p as [|p]; [moved_cubelet|]); lia.
Qed.

Lemma assembled_moves ms : assembled (apply_moves RubiksCube ms).
Proof.
  induction ms as [|m ms IH] using rev_ind; [apply assembled_new|].
  rewrite apply_moves_app. simpl. now apply assembled_move.
Qed.

(** Read the cells named by constant slot numbers in [H]. *)
Ltac read_cells H :=
  repeat match type of H with
         | context [at_ ?l ?i] =>
             let v := eval vm_compute in (at_ l i) in
             change (at_ l i) with v in H
         end.

(** [H] places the cubelet of one position among [loose_cubelets]; [E1],
    [E2] and [E3] compare the colors of its facelets with known ones.
    Only one candidate survives. *)
Ltac pin_cubelet H E1 E2 E3 :=
  vm_compute in H;
  repeat (destruct H as [H|H];
          [injection H as <- <- <-;
           try (exfalso; vm_compute in E1; discriminate E1);
           try (exfalso; vm_compute in E2; discriminate E2);
           try (exfalso; vm_compute in E3; discriminate E3)|]);
  try (destruct H).

(** A solved assembled cube is a brand new cube: the fixed cubelet gives
    the colors of three faces, these pin the three cubelets next to it,
    which give the colors of the other three faces. *)
Lemma assembled_solved s :
  assembled s -> is_solved s = true -> s = RubiksCube.
Proof.
  intros (Hwf & Hc & H7) Hs.
  pose proof (Hc 0 ltac:(lia)) as H0. pose proof (Hc 1 ltac:(lia)) as H1.
  pose proof (Hc 2 ltac:(lia)) as H2. pose proof (Hc 3 ltac:(lia)) as H3.
  pose proof (Hc 4 ltac:(lia)) as H4. pose proof (Hc 5 ltac:(lia)) as H5.
  pose proof (Hc 6 ltac:(lia)) as H6. clear Hc.
  pose proof (proj1 (is_solved_spec s) Hs) as Hspec. clear Hs.
  destruct (Hspec 0 0 1 ltac:(lia) ltac:(lia) ltac:(lia))%Z as (E3 & E4 & E5).
  destruct (Hspec 0 1 0 ltac:(lia) ltac:(lia) ltac:(lia))%Z as (E6 & E7 & E8).
  destruct (Hspec 0 1 1 ltac:(lia) ltac:(lia) ltac:(lia))%Z as (E9 & E10 & E11).
  destruct (Hspec 1 0 0 ltac:(lia) ltac:(lia) ltac:(lia))%Z as (E12 & E13 & E14).
  destruct (Hspec 1 0 1 ltac:(lia) ltac:(lia) ltac:(lia))%Z as (E15 & E16 & E17).
  destruct (Hspec 1 1 0 ltac:(lia) ltac:(lia) ltac:(lia))%Z as (E18 & E19 & E20).
  destruct (Hspec 1 1 1 ltac:(lia) ltac:(lia) ltac:(lia))%Z as (E21 & E22 & E23).
  clear Hspec.
  cube_cells s Hwf. cbn [cubelet_at nth Nat.mul Nat.add] in *.
  read_cells E3; read_cells E4; read_cells E5; read_cells E6; read_cells E7;
  read_cells E8; read_cells E9; read_cells E10; read_cells E11;
  read_cells E12; read_cells E13; read_cells E14; read_cells E15;
  read_cells E16; read_cells E17; read_cells E18; read_cells E19;
  read_cells E20; read_cells E21; read_cells E22; read_cells E23.
  vm_compute in H7. injection H7 as -> -> ->.
  (* the faces x = 1, y = 1 and z = 1 show the colors of position 7 *)
  rewrite <- E21 in E15, E18. rewrite <- E22 in E10, E19.
  rewrite <- E23 in E11, E17.
  pin_cubelet H3 E10 E11 E11. pin_cubelet H5 E15 E17 E17.
  pin_cubelet H6 E18 E19 E19.
  (* the faces x = 0, y = 0 and z = 0 show the colors of their neighbors *)
  rewrite <- E9 in E3, E6. rewrite <- E16 in E4, E13.
  rewrite <- E20 in E8, E14.
  pin_cubelet H1 E3 E4 E23. pin_cubelet H2 E6 E22 E8.
  pin_cubelet H4 E21 E13 E14. pin_cubelet H0 E9 E16 E20.
  reflexivity.
Qed.

(** Among the cubes obtained from a brand new cube, only the brand new
    cube passes [is_solved]. *)
Lemma solved_unique ms :
  is_solved (apply_moves RubiksCube ms) = true ->
  apply_moves RubiksCube ms = RubiksCube.
Proof. apply assembled_solved, assembled_moves. Qed.

(** * Shortest solutions *)

(** C3. Let [s] be obtained from a brand new cube by [k] moves and by no
    fewer.  Then [get_solution] returns on [s] a sequence of exactly [k]
    moves that solves [s]; no sequence of fewer moves leads from [s] to a
    solved cube; and when [s] is solved already the sequence is empty. *)
Theorem get_solution_shortest s ms k :
  s = apply_moves RubiksCube ms -> length ms = k ->
  (forall ms', apply_moves RubiksCube ms' = s -> k <= length ms') ->
  exists solution,
    (exists fuel0, forall fuel, fuel0 <= fuel ->
       get_solution fuel s [] = Some solution) /\
    length solution = k /\
    is_solved (apply_moves s solution) = true /\
    (forall ms', is_solved (apply_moves s ms') = true -> k <= length ms') /\
    (is_solved s = true -> solution = []).
Proof.
  intros Hs Hlen Hmin.
  assert (Hwf : wf_cube s).
  { rewrite Hs. apply wf_apply_moves, wf_RubiksCube. }
  assert (Hback : reach s k RubiksCube).
  { destruct (reach_back ms) as (n & Hn & Hr). rewrite <- Hs in Hr.
    destruct (reach_sym _ _ _ Hwf Hr) as (ms' & Hl' & _ & Hms').
    pose proof (Hmin ms' Hms'). assert (n = k) as <- by lia. exact Hr. }
  destruct (shortest_path_found s k RubiksCube Hwf Hback
              is_solved_RubiksCube) as (path & G1 & G2 & G3 & G4).
  assert (Hpath : length path = k).
  { apply Nat.le_antisymm.
    - exact (G4 k RubiksCube Hback is_solved_RubiksCube).
    - assert (Hr : reach s (length path) RubiksCube).
      { exists path. split; [reflexivity|]. split; [exact G2|].
        rewrite Hs, <- apply_moves_app. apply solved_unique.
        rewrite apply_moves_app, <- Hs. exact G3. }
      destruct (reach_sym _ _ _ Hwf Hr) as (ms' & Hl' & _ & Hms').
      rewrite <- Hl'. now apply Hmin. }
  exists path. split; [exact G1|]. split; [exact Hpath|].
  split; [exact G3|]. split.
  - intros ms' Hsolved.
    destruct (apply_moves_valid ms' s) as (n & Hn & Hr).
    pose proof (G4 n _ Hr Hsolved). lia.
  - intros Hsolved.
    pose proof (G4 0 s (reach_O s) Hsolved) as Hle.
    destruct path; [reflexivity|simpl in Hle; lia].
Qed.

Lemma get_solution_shortest_witness :
  exists solution,
    (exists fuel0, forall fuel, fuel0 <= fuel ->
       get_solution fuel (apply_moves RubiksCube [FC]) [] = Some solution) /\
    length solution = 1 /\
    is_solved (apply_moves (apply_moves RubiksCube [FC]) solution) = true /\
    (forall ms', is_solved (apply_moves (apply_moves RubiksCube [FC]) ms') = true
                 -> 1 <= length ms') /\
    (is_solved (apply_moves RubiksCube [FC]) = true -> solution = []).
Proof.
  apply (get_solution_shortest (apply_moves RubiksCube [FC]) [FC] 1).
  - reflexivity.
  - reflexivity.
  - intros ms' H. destruct ms' as [|m ms'].
    + vm_compute in H. discriminate H.
    + simpl. lia.
Defined.

(** * Further properties of the move table and of the moves *)

Local Open Scope Z_scope.

(** X1. Every row of the table is a bijection of the 24 slots: it lists
    each slot exactly once, its entries are slots, and the row of the
    inverse move maps each entry back to its index. *)
Theorem Move_rows_bijective m :
  valid_move m ->
  Permutation (nth (Z.to_nat m) Move []) (zrange 0 (Z.to_nat NUMSLOTS)) /\
  forall i, valid_slot i ->
    valid_slot (at2 Move m i) /\ at2 Move (inverse m) (at2 Move m i) = i.
Proof.
  intros Hm. split.
  - move_cases m Hm; vm_compute; perm_cells.
  - intros i Hi. apply valid_slot_cases in Hi. vm_compute in Hi.
    move_cases m Hm;
      repeat (destruct Hi as [<-|Hi];
              [split; [vm_compute; split; congruence|reflexivity]|]);
      destruct Hi.
Qed.

Lemma Move_rows_bijective_witness :
  Permutation (nth (Z.to_nat DCC) Move []) (zrange 0 (Z.to_nat NUMSLOTS)) /\
  forall i, valid_slot i ->
    valid_slot (at2 Move DCC i) /\ at2 Move (inverse DCC) (at2 Move DCC i) = i.
Proof.
  apply (Move_rows_bijective DCC). unfold valid_move, DCC, NUMMOVES. lia.
Defined.

(** Name the cells of a table of [NUMMOVES] rows of [NUMSLOTS] cells. *)
Ltac table_cells T Hlen Hrows :=
  do 6 (destruct T as [|? T]; [discriminate Hlen|]);
  destruct T; [clear Hlen|discriminate Hlen];
  repeat match goal with
         | H : Forall wf_cube (_ :: _) |- _ =>
             let Hr := fresh "Hr" in
             let H' := fresh "Hrows" in
             inversion H as [|? ? Hr H']; subst; clear H
         end;
  repeat match goal with
         | H : wf_cube ?row |- _ => cube_cells row H
         end.
Lemma init_moves_fresh T :
  length T = Z.to_nat NUMMOVES -> Forall wf_cube T ->
  at2 T 0 0 = 0 -> init_moves T = Move.
Proof.
  intros Hlen Hrows E. table_cells T Hlen Hrows.
  vm_compute in E. subst. vm_compute. reflexivity.
Qed.

Lemma init_moves_guard T : at2 T 0 0 <> 0 -> init_moves T = T.
Proof.
  intros E. unfold init_moves.
  destruct (at2 T 0 0 =? 0) eqn:E'; [|reflexivity].
  apply Z.eqb_eq in E'. contradiction.
Qed.

(** X2. [init_moves] does not depend on what the table held before: on a
    table whose first cell is 0 it builds the table [Move] whatever the
    other cells are, and on any other table it returns at once and changes
    nothing.  Calling it a second time is therefore without effect. *)
Theorem init_moves_once T :
  length T = Z.to_nat NUMMOVES -> Forall wf_cube T ->
  (at2 T 0 0 = 0 -> init_moves T = Move) /\
  (at2 T 0 0 <> 0 -> init_moves T = T) /\
  init_moves (init_moves T) = init_moves T.
Proof.
  intros Hlen Hrows.
  split; [now apply init_moves_fresh|]. split; [apply init_moves_guard|].
  destruct (Z.eq_dec (at2 T 0 0) 0) as [E|E].
  - rewrite (init_moves_fresh T Hlen Hrows E). apply init_moves_idempotent.
  - now rewrite !(init_moves_guard T E).
Qed.

Lemma init_moves_once_witness :
  (at2 Move_static 0 0 = 0 -> init_moves Move_static = Move) /\
  (at2 Move_static 0 0 <> 0 -> init_moves Move_static = Move_static) /\
  init_moves (init_moves Move_static) = init_moves Move_static.
Proof.
  apply (init_moves_once Move_static).
  - reflexivity.
  - vm_compute. repeat constructor.
Defined.

(** X3. A move turns one face only: [FC] and [FCC] leave the slots of the
    back cubelets ([x = 1]) as they are, [LC] and [LCC] those of the right
    cubelets ([y = 1]), [DC] and [DCC] those of the upper cubelets
    ([z = 1]).  The cubelet at back, right, up is never moved. *)
Theorem moves_turn_one_face s x y z f :
  0 <= x < 2 -> 0 <= y < 2 -> 0 <= z < 2 -> 0 <= f < 3 ->
  (x = 1 ->
   at_ (apply_move FC s) (get_slot_num x y z f) = at_ s (get_slot_num x y z f) /\
   at_ (apply_move FCC s) (get_slot_num x y z f) = at_ s (get_slot_num x y z f)) /\
  (y = 1 ->
   at_ (apply_move LC s) (get_slot_num x y z f) = at_ s (get_slot_num x y z f) /\
   at_ (apply_move LCC s) (get_slot_num x y z f) = at_ s (get_slot_num x y z f)) /\
  (z = 1 ->
   at_ (apply_move DC s) (get_slot_num x y z f) = at_ s (get_slot_num x y z f) /\
   at_ (apply_move DCC s) (get_slot_num x y z f) = at_ s (get_slot_num x y z f)).
Proof.
  intros Hx Hy Hz Hf.
  assert (x = 0 \/ x = 1) as [->| ->] by lia;
  assert (y = 0 \/ y = 1) as [->| ->] by lia;
  assert (z = 0 \/ z = 1) as [->| ->] by lia;
  assert (f = 0 \/ f = 1 \/ f = 2) as [->|[->| ->]] by lia;
  (split; [|split]); intros E; try discriminate E; split; reflexivity.
Qed.

Lemma moves_turn_one_face_witness :
  (1 = 1 ->
   at_ (apply_move FC (apply_move DC RubiksCube)) (get_slot_num 1 0 1 2)
     = at_ (apply_move DC RubiksCube) (get_slot_num 1 0 1 2) /\
   at_ (apply_move FCC (apply_move DC RubiksCube)) (get_slot_num 1 0 1 2)
     = at_ (apply_move DC RubiksCube) (get_slot_num 1 0 1 2)) /\
  (0 = 1 ->
   at_ (apply_move LC (apply_move DC RubiksCube)) (get_slot_num 1 0 1 2)
     = at_ (apply_move DC RubiksCube) (get_slot_num 1 0 1 2) /\
   at_ (apply_move LCC (apply_move DC RubiksCube)) (get_slot_num 1 0 1 2)
     = at_ (apply_move DC RubiksCube) (get_slot_num 1 0 1 2)) /\
  (1 = 1 ->
   at_ (apply_move DC (apply_move DC RubiksCube)) (get_slot_num 1 0 1 2)
     = at_ (apply_move DC RubiksCube) (get_slot_num 1 0 1 2) /\
   at_ (apply_move DCC (apply_move DC RubiksCube)) (get_slot_num 1 0 1 2)
     = at_ (apply_move DC RubiksCube) (get_slot_num 1 0 1 2)).
Proof.
  apply (moves_turn_one_face (apply_move DC RubiksCube) 1 0 1 2); lia.
Defined.

(** X4. A counter-clockwise move does what three clockwise moves of the
    same face do, and four counter-clockwise moves of a face give the cube
    back. *)
Theorem counter_clockwise_is_three_clockwise s :
  wf_cube s ->
  apply_move FCC s = apply_move FC (apply_move FC (apply_move FC s)) /\
  apply_move LCC s = apply_move LC (apply_move LC (apply_move LC s)) /\
  apply_move DCC s = apply_move DC (apply_move DC (apply_move DC s)) /\
  forall m, m = FCC \/ m = LCC \/ m = DCC ->
    apply_move m (apply_move m (apply_move m (apply_move m s))) = s.
Proof.
  intros Hs. cube_cells s Hs.
  split; [reflexivity|]. split; [reflexivity|]. split; [reflexivity|].
  intros m [->|[->| ->]]; reflexivity.
Qed.

Lemma counter_clockwise_is_three_clockwise_witness :
  apply_move FCC (apply_move LC RubiksCube)
    = apply_move FC (apply_move FC (apply_move FC (apply_move LC RubiksCube))) /\
  apply_move LCC (apply_move LC RubiksCube)
    = apply_move LC (apply_move LC (apply_move LC (apply_move LC RubiksCube))) /\
  apply_move DCC (apply_move LC RubiksCube)
    = apply_move DC (apply_move DC (apply_move DC (apply_move LC RubiksCube))) /\
  forall m, m = FCC \/ m = LCC \/ m = DCC ->
    apply_move m (apply_move m (apply_move m (apply_move m
      (apply_move LC RubiksCube)))) = apply_move LC RubiksCube.
Proof.
  apply (counter_clockwise_is_three_clockwise (apply_move LC RubiksCube)).
  reflexivity.
Defined.

(** X5. A sequence of valid moves is undone by the inverse moves in
    reverse order. *)
Theorem apply_moves_undo ms :
  forall s, wf_cube s -> Forall valid_move ms ->
    apply_moves (apply_moves s ms) (rev (map inverse ms)) = s.
Proof.
  induction ms as [|m ms IH]; intros s Hs Hv; [reflexivity|].
  apply Forall_cons in Hv as [Hm Hv]. cbn [map rev].
  rewrite apply_moves_app.
  change (apply_moves s (m :: ms)) with (apply_moves (apply_move m s) ms).
  rewrite IH by (try apply wf_apply_move; assumption).
  simpl. now apply apply_inverse_l.
Qed.

Lemma apply_moves_undo_witness :
  apply_moves (apply_moves RubiksCube [FC; LCC; DC; DC])
              (rev (map inverse [FC; LCC; DC; DC])) = RubiksCube.
Proof.
  apply (apply_moves_undo [FC; LCC; DC; DC] RubiksCube).
  - reflexivity.
  - repeat constructor; vm_compute; congruence.
Defined.

(** * Further properties of cubes *)

(** X6. Whatever moves are applied to a brand new cube, its 24 slots hold
    24 different facelet identifiers, each the packing of three valid
    colors that belong to three different face axes (rows of
    [face_color], two colors each). *)
Theorem reachable_facelets ms :
  NoDup (apply_moves RubiksCube ms) /\
  forall cid, In cid (apply_moves RubiksCube ms) ->
    exists c1 c2 c3,
      valid_color c1 /\ valid_color c2 /\ valid_color c3 /\
      c1 / 2 <> c2 / 2 /\ c2 / 2 <> c3 / 2 /\ c1 / 2 <> c3 / 2 /\
      cid = get_facelet_id c1 c2 c3.
Proof.
  pose proof (apply_moves_perm ms RubiksCube wf_RubiksCube) as HP.
  split.
  - rewrite HP. apply (bool_decide_unpack _). vm_compute. exact I.
  - intros cid Hin. apply (Permutation_in _ HP) in Hin.
    exists (get_facelet_color cid), (Z.land (Z.shiftr cid 3) 7), (Z.land cid 7).
    vm_compute in Hin.
    repeat (destruct Hin as [<-|Hin];
            [vm_compute; repeat split; congruence|]).
    destruct Hin.
Qed.

(** X7. Among the cubes obtained from a brand new cube, [is_solved]
    accepts the brand new cube and no other. *)
Theorem only_new_cube_is_solved ms :
  is_solved (apply_moves RubiksCube ms) = true <->
  apply_moves RubiksCube ms = RubiksCube.
Proof.
  split.
  - apply assembled_solved, assembled_moves.
  - intros ->. reflexivity.
Qed.

(** X8. On arrays of 24 cells [RubiksCubeEqual] decides equality. *)
Theorem rc_equal_iff a b :
  wf_cube a -> wf_cube b -> (rc_equal a b = true <-> a = b).
Proof.
  intros Ha Hb. split; [now apply rc_equal_eq|].
  intros ->. apply rc_equal_refl.
Qed.

Lemma rc_equal_iff_witness :
  rc_equal RubiksCube (apply_move FC RubiksCube) = true
  <-> RubiksCube = apply_move FC RubiksCube.
Proof.
  apply (rc_equal_iff RubiksCube (apply_move FC RubiksCube)); reflexivity.
Defined.

Lemma foldl_ext_in {A B} (f g : A -> B -> A) (l : list B) :
  (forall a x, In x l -> f a x = g a x) ->
  forall a, foldl f a l = foldl g a l.
Proof.
  induction l as [|x l IH]; intros H a; [reflexivity|].
  simpl. rewrite (H a x (or_introl eq_refl)).
  apply IH. intros a' y Hy. apply H. now right.
Qed.

(** X9. The hash agrees with [RubiksCubeEqual]: cubes that compare equal
    have the same hash, which fits in 64 bits. *)
Theorem hash_respects_equal a b :
  rc_equal a b = true ->
  RubiksCubeHash a = RubiksCubeHash b /\
  0 <= RubiksCubeHash a < 2 ^ 64.
Proof.
  intros H. unfold rc_equal in H. rewrite forallb_forall in H. split.
  - unfold RubiksCubeHash. apply foldl_ext_in.
    intros h i Hi. apply H, Z.eqb_eq in Hi. now rewrite Hi.
  - unfold RubiksCubeHash. change (Z.to_nat NUMSLOTS) with 24%nat.
    cbn [zrange seq map foldl]. apply Z.mod_pos_bound. lia.
Qed.

Lemma hash_respects_equal_witness :
  RubiksCubeHash (apply_move FC RubiksCube)
    = RubiksCubeHash (apply_move LC (apply_move LCC (apply_move FC RubiksCube))) /\
  0 <= RubiksCubeHash (apply_move FC RubiksCube) < 2 ^ 64.
Proof.
  apply (hash_respects_equal (apply_move FC RubiksCube)
           (apply_move LC (apply_move LCC (apply_move FC RubiksCube)))).
  reflexivity.
Defined.

(** * Further properties of the solver *)

Local Open Scope nat_scope.

Section SearchEnds.

Variable self : list Z.
Hypothesis wf_self : wf_cube self.
Variable U : gset (list Z).
Hypothesis U_self : self ∈ U.
Hypothesis U_closed : forall v m, v ∈ U -> apply_move m v ∈ U.

Local Abbreviation Inv := (bfs_inv self U).

(** Whether or not a solved cube is within reach, the loop comes to its
    end: on a solved cube, or on an empty frontier. *)
Lemma bfs_loop_ends fuel :
  forall d A B P,
    Inv d A B P ->
    size U + length (A ++ B) < fuel + size P ->
    exists d' P',
      (exists A' B' dst,
         bfs_loop fuel (A ++ B) P = Some (find P' dst, P') /\
         is_solved dst = true /\ Inv d' (dst :: A') B' P') \/
      (bfs_loop fuel (A ++ B) P = Some (None, P') /\ Inv d' [] [] P').
Proof.
  induction fuel as [|fuel IH]; intros d A B P HI Hm.
  { pose proof (Inv_size self U _ _ _ _ HI). lia. }
  assert (Hhead : (A = [] /\ B = []) \/
    exists d1 u A1 B1, A ++ B = u :: (A1 ++ B1) /\ Inv d1 (u :: A1) B1 P).
  { destruct A as [|u A]; [destruct B as [|u B]|].
    - now left.
    - right. exists (S d), u, B, []. split; [now rewrite app_nil_r|].
      now apply Inv_shift.
    - right. exists d, u, A, B. now split. }
  destruct Hhead as [[-> ->]|(d1 & u & A1 & B1 & E & HI1)].
  { exists d, P. right. split; [reflexivity|exact HI]. }
  rewrite E in *. cbn [bfs_loop]. destruct (is_solved u) eqn:Hs.
  - exists d1, P. left. exists A1, B1, u. now split.
  - destruct (Inv_visit self U U_closed _ _ _ _ _ HI1 Hs)
      as (new & H1 & H2 & H3).
    cbv zeta. rewrite H1. apply (IH d1 A1 (B1 ++ new) _ H3).
    rewrite H2. cbn [length] in Hm. rewrite !length_app in *. lia.
Qed.

End SearchEnds.


(** X10. [get_solution] comes to its end on every array of 24 cells.  The
    moves it finds are put in front of the list it was given, which is
    kept.  Either they form a shortest sequence leading to a solved cube,
    or no sequence of moves leads to a solved cube and the list is left as
    it was. *)
Theorem get_solution_total self solution :
  wf_cube self ->
  exists path,
    (exists fuel0, forall fuel, fuel0 <= fuel ->
       get_solution fuel self solution = Some (path ++ solution)) /\
    Forall valid_move path /\
    ((is_solved (apply_moves self path) = true /\
      forall ms, is_solved (apply_moves self ms) = true ->
                 length path <= length ms) \/
     (path = [] /\ forall ms, is_solved (apply_moves self ms) = false)).
Proof.
  intros Hs. destruct (universe self Hs) as (U & HU1 & HU2).
  destruct (bfs_loop_ends self U HU2 (S (size U)) 0 [self] [] _
              (Inv_init self U HU1)) as (d & P & Hend).
  { rewrite map_size_insert_None by apply lookup_empty.
    rewrite map_size_empty. simpl. lia. }
  change ([self] ++ []) with [self] in Hend.
  destruct Hend as [(A & B & dst & Hloop & Hdst & HI)|[Hloop HI]].
  - assert (Hd : dist self d dst).
    { apply (inv_A HI). now left. }
    destruct (backtrace_path self Hs U _ _ _ _ HI d dst
                (Nat.max (S (size U)) d) solution Hd)
      as (path & G1 & G2 & G3 & G4).
    { apply (inv_front HI). now left. }
    { lia. }
    exists path. split; [|split; [exact G3|left; split]].
    + exists (Nat.max (S (size U)) d). intros fuel Hfuel.
      apply (get_solution_mono (Nat.max (S (size U)) d)); [|exact Hfuel].
      unfold get_solution.
      rewrite (bfs_loop_mono _ _ _ _ _ Hloop) by lia. exact G1.
    + now rewrite G4.
    + intros ms Hms. destruct (apply_moves_valid ms self) as (n & Hn & Hr).
      pose proof (Inv_nearest self U _ _ _ _ _ _ _ HI Hr Hms). lia.
  - exists []. split; [|split; [constructor|right; split; [reflexivity|]]].
    + exists (S (size U)). intros fuel Hfuel.
      apply (get_solution_mono (S (size U))); [|exact Hfuel].
      unfold get_solution. rewrite Hloop. reflexivity.
    + intros ms. destruct (apply_moves_valid ms self) as (n & Hn & Hr).
      now destruct (Inv_closed self U _ _ HI n _ Hr).
Qed.

Lemma get_solution_total_witness :
  exists path,
    (exists fuel0, forall fuel, fuel0 <= fuel ->
       get_solution fuel (apply_move FC RubiksCube) [DC]
         = Some (path ++ [DC])) /\
    Forall valid_move path /\
    ((is_solved (apply_moves (apply_move FC RubiksCube) path) = true /\
      forall ms, is_solved (apply_moves (apply_move FC RubiksCube) ms) = true ->
                 length path <= length ms) \/
     (path = [] /\
      forall ms, is_solved (apply_moves (apply_move FC RubiksCube) ms) = false)).
Proof.
  apply (get_solution_total (apply_move FC RubiksCube) [DC]).
  reflexivity.
Defined.

(** X11. The solution of a scrambled cube is never longer than the
    scramble, and its replay gives the brand new cube back. *)
Theorem solution_within_scramble ms :
  exists solution,
    (exists fuel0, forall fuel, fuel0 <= fuel ->
       get_solution fuel (apply_moves RubiksCube ms) [] = Some solution) /\
    length solution <= length ms /\
    apply_moves (apply_moves RubiksCube ms) solution = RubiksCube.
Proof.
  destruct (reach_back ms) as (n & Hn & Hr).
  destruct (shortest_path_found _ n RubiksCube
              (wf_apply_moves ms _ wf_RubiksCube) Hr is_solved_RubiksCube)
    as (path & G1 & G2 & G3 & G4).
  exists path. split; [exact G1|]. split.
  - pose proof (G4 n _ Hr is_solved_RubiksCube). lia.
  - rewrite <- apply_moves_app. apply solved_unique.
    now rewrite apply_moves_app.
Qed.

(** X12. A solution returned for a scrambled cube holds valid moves only,
    and never a move followed at once by its inverse. *)
Theorem solution_has_no_detour ms solution fuel :
  get_solution fuel (apply_moves RubiksCube ms) [] = Some solution ->
  Forall valid_move solution /\
  forall p m q, solution <> p ++ [m; inverse m] ++ q.
Proof.
  intros Hsol.
  set (s := apply_moves RubiksCube ms) in *.
  assert (Hwf : wf_cube s) by apply wf_apply_moves, wf_RubiksCube.
  destruct (reach_back ms) as (n & _ & Hr). fold s in Hr.
  destruct (shortest_path_found s n RubiksCube Hwf Hr is_solved_RubiksCube)
    as (path & (fuel0 & G1) & G2 & G3 & G4).
  assert (path = solution) as ->.
  { pose proof (G1 (Nat.max fuel fuel0) ltac:(lia)) as E1.
    pose proof (get_solution_mono _ (Nat.max fuel fuel0) _ _ _ Hsol
                  ltac:(lia)) as E2.
    congruence. }
  split; [exact G2|]. intros p m q ->.
  apply Forall_app in G2 as [_ G2]. apply Forall_cons in G2 as [Hm _].
  assert (Hshort : is_solved (apply_moves s (p ++ q)) = true).
  { rewrite <- G3, !apply_moves_app. cbn [apply_moves foldl].
    rewrite apply_inverse_l; [reflexivity| |exact Hm].
    now apply wf_apply_moves. }
  destruct (apply_moves_valid (p ++ q) s) as (k & Hk & Hrk).
  pose proof (G4 k _ Hrk Hshort) as Hle.
  rewrite !length_app in *. cbn [length] in Hle. lia.
Qed.

Lemma solution_has_no_detour_witness :
  Forall valid_move [FCC] /\
  forall p m q, [FCC] <> p ++ [m; inverse m] ++ q.
Proof.
  apply (solution_has_no_detour [FC] [FCC] 3). reflexivity.
Defined.

Lemma foldl_apply_move {A} (g : A -> Z) (l : list A) :
  forall r, foldl (fun r i => apply_move (g i) r) r l = apply_moves r (map g l).
Proof. induction l as [|i l IH]; intros r; [reflexivity|]. simpl. apply IH. Qed.

(** The loop of [monkey_play] applies one valid move per turn. *)
Lemma monkey_play_moves random r :
  (forall k, (0 <= random k)%Z) ->
  (0 <= (monkey_play random r).2 < 200)%Z /\
  exists ms,
    length ms = Z.to_nat (monkey_play random r).2 /\
    Forall valid_move ms /\
    (monkey_play random r).1 = apply_moves r ms.
Proof.
  intros Hrand. unfold monkey_play. cbn [fst snd]. split.
  - apply Z.rem_bound_pos; [apply Hrand|lia].
  - rewrite (foldl_apply_move
               (fun i => Z.rem (random (S (Z.to_nat i))) NUMMOVES)).
    eexists. split; [|split; [|reflexivity]].
    + unfold zrange. now rewrite !length_map, length_seq.
    + apply Forall_forall. intros m Hm.
      apply list_elem_of_In, in_map_iff in Hm as (i & <- & _).
      apply Z.rem_bound_pos; [apply Hrand|unfold NUMMOVES; lia].
Qed.

(** X13. Provided [random()] returns non-negative values, [monkey_play]
    returns a number below 200 and leaves the cube that this number of
    valid moves produce. *)
Theorem monkey_play_scrambles random r :
  (forall k, (0 <= random k)%Z) ->
  (0 <= (monkey_play random r).2 < 200)%Z /\
  exists ms,
    length ms = Z.to_nat (monkey_play random r).2 /\
    Forall valid_move ms /\
    (monkey_play random r).1 = apply_moves r ms.
Proof.
  intros Hrand. destruct (monkey_play_moves random r Hrand) as [Hn Hms].
  split; [exact Hn|].
  destruct Hms as (ms & Hlen & Hv & E). exists ms. now repeat split.
Qed.

Lemma monkey_play_scrambles_witness :
  (0 <= (monkey_play (fun k => Z.of_nat (7 * k + 3)) RubiksCube).2 < 200)%Z /\
  exists ms,
    length ms = Z.to_nat (monkey_play (fun k => Z.of_nat (7 * k + 3)) RubiksCube).2 /\
    Forall valid_move ms /\
    (monkey_play (fun k => Z.of_nat (7 * k + 3)) RubiksCube).1
      = apply_moves RubiksCube ms.
Proof.
  apply (monkey_play_scrambles (fun k => Z.of_nat (7 * k + 3)) RubiksCube).
  intros k. lia.
Defined.

(** X14. [main] ends with the brand new cube, whatever [random()]
    returns (non-negative values): the solution found for the jumbled cube
    brings it back, and it has at most as many moves as the monkey
    played, fewer than 200. *)
Theorem main_solves random :
  (forall k, (0 <= random k)%Z) ->
  exists jumbled solution,
    (exists fuel0, forall fuel, fuel0 <= fuel ->
       main random fuel = Some (jumbled, solution, RubiksCube)) /\
    jumbled = (monkey_play random RubiksCube).1 /\
    (Z.of_nat (length solution) <= (monkey_play random RubiksCube).2 < 200)%Z.
Proof.
  intros Hrand.
  destruct (monkey_play_moves random RubiksCube Hrand)
    as (Hn & ms & Hlen & Hv & Hms).
  destruct (reach_back ms) as (n & Hle & Hr). rewrite <- Hms in Hr.
  assert (Hwf : wf_cube (monkey_play random RubiksCube).1).
  { rewrite Hms. apply wf_apply_moves, wf_RubiksCube. }
  destruct (shortest_path_found _ n RubiksCube Hwf Hr is_solved_RubiksCube)
    as (path & (fuel0 & G1) & G2 & G3 & G4).
  exists (monkey_play random RubiksCube).1, path.
  split; [|split; [reflexivity|]].
  - exists fuel0. intros fuel Hfuel. unfold main. cbv zeta.
    rewrite (G1 fuel Hfuel). do 2 f_equal.
    rewrite Hms, <- apply_moves_app. apply solved_unique.
    rewrite apply_moves_app, <- Hms. exact G3.
  - pose proof (G4 n _ Hr is_solved_RubiksCube). lia.
Qed.

Lemma main_solves_witness :
  exists jumbled solution,
    (exists fuel0, forall fuel, fuel0 <= fuel ->
       main (fun k => Z.of_nat (7 * k + 3)) fuel
         = Some (jumbled, solution, RubiksCube)) /\
    jumbled = (monkey_play (fun k => Z.of_nat (7 * k + 3)) RubiksCube).1 /\
    (Z.of_nat (length solution)
       <= (monkey_play (fun k => Z.of_nat (7 * k + 3)) RubiksCube).2 < 200)%Z.
Proof.
  apply (main_solves (fun k => Z.of_nat (7 * k + 3))).
  intros k. lia.
Defined.

(** * Labels *)

Local Open Scope Z_scope.

(** X15. [get_slot_num] numbers the 24 pairs of a cubelet position and a
    face axis with the 24 slots, one to one: the arithmetic of
    [get_slot_str] reads the coordinates back from the slot number, and
    every slot number is the number of the coordinates read from it. *)
Theorem slot_coordinates :
  (forall x y z f,
     0 <= x < 2 -> 0 <= y < 2 -> 0 <= z < 2 -> 0 <= f < 3 ->
     valid_slot (get_slot_num x y z f) /\
     Z.land (Z.shiftr (get_slot_num x y z f / 3) 2) 1 = x /\
     Z.land (Z.shiftr (get_slot_num x y z f / 3) 1) 1 = y /\
     Z.land (get_slot_num x y z f / 3) 1 = z /\
     get_slot_num x y z f mod 3 = f) /\
  (forall i, valid_slot i ->
     get_slot_num (Z.land (Z.shiftr (i / 3) 2) 1)
                  (Z.land (Z.shiftr (i / 3) 1) 1)
                  (Z.land (i / 3) 1) (i mod 3) = i).
Proof.
  split.
  - intros x y z f Hx Hy Hz Hf.
    assert (x = 0 \/ x = 1) as [->| ->] by lia;
    assert (y = 0 \/ y = 1) as [->| ->] by lia;
    assert (z = 0 \/ z = 1) as [->| ->] by lia;
    assert (f = 0 \/ f = 1 \/ f = 2) as [->|[->| ->]] by lia;
    (split; [vm_compute; split; congruence|repeat split; reflexivity]).
  - intros i Hi. apply valid_slot_cases in Hi. vm_compute in Hi.
    repeat (destruct Hi as [<-|Hi]; [reflexivity|]). destruct Hi.
Qed.

(** X16. The label of the slot of a position and a face axis is made of
    the letters of the position, front or back, left or right, down or up,
    with the letter of the face axis in brackets; different slots have
    different labels. *)
Theorem slot_labels :
  (forall x y z f,
     0 <= x < 2 -> 0 <= y < 2 -> 0 <= z < 2 -> 0 <= f < 3 ->
     get_slot_str (get_slot_num x y z f) =
       ((if f =? 0 then "(" else "") +:+ (if x =? 0 then "F" else "B") +:+
        (if f =? 0 then ")" else "")) +:+
       ((if f =? 1 then "(" else "") +:+ (if y =? 0 then "L" else "R") +:+
        (if f =? 1 then ")" else "")) +:+
       ((if f =? 2 then "(" else "") +:+ (if z =? 0 then "D" else "U") +:+
        (if f =? 2 then ")" else ""))) /\
  (forall i j, valid_slot i -> valid_slot j ->
     get_slot_str i = get_slot_str j -> i = j).
Proof.
  split.
  - intros x y z f Hx Hy Hz Hf.
    assert (x = 0 \/ x = 1) as [->| ->] by lia;
    assert (y = 0 \/ y = 1) as [->| ->] by lia;
    assert (z = 0 \/ z = 1) as [->| ->] by lia;
    assert (f = 0 \/ f = 1 \/ f = 2) as [->|[->| ->]] by lia;
    reflexivity.
  - intros i j Hi Hj. apply valid_slot_cases in Hi, Hj.
    vm_compute in Hi.
    repeat (destruct Hi as [<-|Hi];
      [vm_compute in Hj;
       repeat (destruct Hj as [<-|Hj];
               [intros H; first [reflexivity|vm_compute in H; discriminate H]|]);
       destruct Hj|]).
    destruct Hi.
Qed.

Lemma string_app_assoc (a b c : string) : (a +:+ b) +:+ c = a +:+ (b +:+ c).
Proof.
  induction a as [|ch a IH]; [reflexivity|].
  change ((String ch a +:+ b) +:+ c) with (String ch ((a +:+ b) +:+ c)).
  change (String ch a +:+ (b +:+ c)) with (String ch (a +:+ (b +:+ c))).
  now rewrite IH.
Qed.

Lemma string_app_nil_r (a : string) : a +:+ "" = a.
Proof.
  induction a as [|ch a IH]; [reflexivity|].
  change (String ch a +:+ "") with (String ch (a +:+ "")).
  now rewrite IH.
Qed.

(** A color letter at the head of a string determines the color. *)
Lemma color_str_head c d s t :
  valid_color c -> valid_color d ->
  get_color_str c +:+ s = get_color_str d +:+ t -> c = d /\ s = t.
Proof.
  intros Hc Hd H.
  color_cases c Hc; color_cases d Hd; vm_compute in H;
    first [discriminate H | injection H as ->; split; reflexivity].
Qed.

Lemma facelet_str_id c1 c2 c3 :
  valid_color c1 -> valid_color c2 -> valid_color c3 ->
  get_facelet_str (get_facelet_id c1 c2 c3)
  = (get_color_str c1 +:+ get_color_str c2) +:+ get_color_str c3.
Proof.
  intros H1 H2 H3.
  color_cases c1 H1; color_cases c2 H2; color_cases c3 H3; reflexivity.
Qed.

Lemma land7_cases x :
  Z.land x 7 = 0 \/ Z.land x 7 = 1 \/ Z.land x 7 = 2 \/ Z.land x 7 = 3 \/
  Z.land x 7 = 4 \/ Z.land x 7 = 5 \/ Z.land x 7 = 6 \/ Z.land x 7 = 7.
Proof.
  assert (E : Z.land x 7 = x mod 8).
  { change 7 with (Z.ones 3). now rewrite Z.land_ones by lia. }
  rewrite E. pose proof (Z.mod_pos_bound x 8 ltac:(lia)). lia.
Qed.

(** X17. The label of a facelet packed from three valid colors is the
    three letters of these colors, and it tells the three colors.  A label
    never has more than three letters; a field that holds no color of the
    enumeration prints nothing. *)
Theorem facelet_labels :
  (forall c1 c2 c3,
     valid_color c1 -> valid_color c2 -> valid_color c3 ->
     get_facelet_str (get_facelet_id c1 c2 c3)
       = (get_color_str c1 +:+ get_color_str c2) +:+ get_color_str c3 /\
     String.length (get_facelet_str (get_facelet_id c1 c2 c3)) = 3%nat /\
     forall d1 d2 d3,
       valid_color d1 -> valid_color d2 -> valid_color d3 ->
       get_facelet_str (get_facelet_id c1 c2 c3)
         = get_facelet_str (get_facelet_id d1 d2 d3) ->
       c1 = d1 /\ c2 = d2 /\ c3 = d3) /\
  (forall cid, (String.length (get_facelet_str cid) <= 3)%nat) /\
  (forall c, ~ valid_color c -> get_color_str c = "").
Proof.
  split; [|split].
  - intros c1 c2 c3 H1 H2 H3.
    split; [now apply facelet_str_id|]. split.
    + color_cases c1 H1; color_cases c2 H2; color_cases c3 H3; reflexivity.
    + intros d1 d2 d3 G1 G2 G3 E.
      rewrite !facelet_str_id, !string_app_assoc in E by assumption.
      apply color_str_head in E as [-> E]; [|assumption..].
      apply color_str_head in E as [-> E]; [|assumption..].
      rewrite <- (string_app_nil_r (get_color_str c3)) in E.
      rewrite <- (string_app_nil_r (get_color_str d3)) in E.
      apply color_str_head in E as [-> _]; [|assumption..].
      now repeat split.
  - intros cid. unfold get_facelet_str.
    destruct (land7_cases (Z.shiftr cid 6)) as [->|[->|[->|[->|[->|[->|[->| ->]]]]]]];
    destruct (land7_cases (Z.shiftr cid 3)) as [->|[->|[->|[->|[->|[->|[->| ->]]]]]]];
    destruct (land7_cases cid) as [->|[->|[->|[->|[->|[->|[->| ->]]]]]]];
    vm_compute; lia.
  - intros c Hc. unfold valid_color, cY in Hc. unfold get_color_str.
    repeat (destruct (_ =? _) eqn:E;
            [apply Z.eqb_eq in E; unfold cR, cG, cB, cC, cM, cY in E; lia
            |clear E]).
    reflexivity.
Qed.

Lemma foldl_append {A} (g : A -> string) (l : list A) :
  forall acc,
    foldl (fun res x => res +:+ g x) acc l
    = acc +:+ foldr (fun x r => g x +:+ r) "" l.
Proof.
  induction l as [|x l IH]; intros acc; cbn [foldl foldr].
  - now rewrite string_app_nil_r.
  - now rewrite IH, string_app_assoc.
Qed.

Lemma to_string_cells s :
  wf_cube s ->
  to_string s = foldr (fun cid r => get_facelet_str cid +:+ r) "" s.
Proof.
  intros Hs. unfold to_string.
  rewrite (foldl_append (fun slot => get_facelet_str (at_ s slot))).
  cube_cells s Hs. reflexivity.
Qed.

(** X18. On cubes whose cells are packings of valid colors, [to_string]
    is one to one: two cubes with the same string are the same cube. *)
Theorem to_string_injective a b :
  wf_cube a -> wf_cube b ->
  (forall cid, In cid a \/ In cid b ->
     exists c1 c2 c3, valid_color c1 /\ valid_color c2 /\ valid_color c3 /\
                      cid = get_facelet_id c1 c2 c3) ->
  to_string a = to_string b -> a = b.
Proof.
  intros Ha Hb Hvalid E.
  rewrite (to_string_cells a Ha), (to_string_cells b Hb) in E.
  assert (Hlen : length a = length b) by (unfold wf_cube in *; congruence).
  clear Ha Hb. revert b Hvalid E Hlen.
  induction a as [|x a IH]; intros [|y b] Hvalid E Hlen;
    try discriminate Hlen; [reflexivity|].
  cbn [foldr] in E.
  destruct (Hvalid x) as (c1 & c2 & c3 & H1 & H2 & H3 & ->);
    [left; now left|].
  destruct (Hvalid y) as (d1 & d2 & d3 & G1 & G2 & G3 & ->);
    [right; now left|].
  rewrite !facelet_str_id, !string_app_assoc in E by assumption.
  apply color_str_head in E as [-> E]; [|assumption..].
  apply color_str_head in E as [-> E]; [|assumption..].
  apply color_str_head in E as [-> E]; [|assumption..].
  f_equal. apply IH; [|exact E|now injection Hlen].
  intros cid [Hin|Hin]; apply Hvalid; [left|right]; now right.
Qed.

Lemma to_string_injective_witness :
  apply_move FC RubiksCube
  = apply_move LC (apply_move LCC (apply_move FC RubiksCube)).
Proof.
  apply (to_string_injective (apply_move FC RubiksCube)
           (apply_move LC (apply_move LCC (apply_move FC RubiksCube)))).
  - reflexivity.
  - reflexivity.
  - intros cid Hin.
    exists (get_facelet_color cid), (Z.land (Z.shiftr cid 3) 7), (Z.land cid 7).
    vm_compute in Hin.
    destruct Hin as [Hin|Hin];
      repeat (destruct Hin as [<-|Hin];
              [vm_compute; repeat split; congruence|]);
      destruct Hin.
  - reflexivity.
Defined.
